(** * superscore: the file-backed configuration backend

    A shallow embedding of [superscore/backends/core.py] and
    [superscore/backends/filestore.py], and the properties of the
    persistence layer checked against it.

    Layout: the model (paths, file system, Python objects, the backend's
    methods), a concrete environment to run it, then the theorems. *)

From Stdlib Require Import Ascii String.
From stdpp Require Import gmap strings list fin_maps.

Set Warnings "-register-all".

(** ** [os.path] on POSIX, as far as [_temp_path] uses it *)

Module Posixpath.

Definition sep : ascii := "/"%char.

Definition is_sep (c : ascii) : bool := bool_decide (c = sep).

(** ['/' in p] *)
Fixpoint has_sep (p : string) : bool :=
  match p with
  | EmptyString => false
  | String c r => is_sep c || has_sep r
  end.

(** [(p[:i], p[i:])] for [i = p.rfind('/') + 1]. *)
Fixpoint rsplit (p : string) : string * string :=
  match p with
  | EmptyString => (EmptyString, EmptyString)
  | String c r =>
      if has_sep r then (String c (rsplit r).1, (rsplit r).2)
      else if is_sep c then (String c EmptyString, r)
      else (EmptyString, String c r)
  end.

(** [head == '/' * len(head)] *)
Fixpoint all_sep (s : string) : bool :=
  match s with
  | EmptyString => true
  | String c r => is_sep c && all_sep r
  end.

(** [head.rstrip('/')] *)
Fixpoint rstrip (s : string) : string :=
  match s with
  | EmptyString => EmptyString
  | String c r =>
      match rstrip r with
      | EmptyString => if is_sep c then EmptyString else String c EmptyString
      | r' => String c r'
      end
  end.

Definition is_empty (s : string) : bool :=
  match s with EmptyString => true | String _ _ => false end.

Fixpoint last_char (s : string) : option ascii :=
  match s with
  | EmptyString => None
  | String c EmptyString => Some c
  | String _ r => last_char r
  end.

Definition startswith_sep (s : string) : bool :=
  match s with String c _ => is_sep c | EmptyString => false end.

Definition endswith_sep (s : string) : bool :=
  match last_char s with Some c => is_sep c | None => false end.

Definition dirname (p : string) : string :=
  let head := (rsplit p).1 in
  if negb (is_empty head) && negb (all_sep head) then rstrip head else head.

Definition basename (p : string) : string := (rsplit p).2.

(** [os.path.join(a, b)] with two arguments. *)
Definition join (a b : string) : string :=
  if startswith_sep b then b
  else if is_empty a || endswith_sep a then a +:+ b
  else a +:+ String sep b.

End Posixpath.

(** ** The file system

    A directory tree is flattened to a finite map from path names to
    regular files; a file is its bytes and its permission bits. *)

Record File := mkFile { contents : string; mode : N }.

Global Instance File_eq_dec : EqDecision File.
Proof. solve_decision. Defined.

Abbreviation FS := (gmap string File).

(** [os.path.exists(p)] *)
Definition exists_ (fs : FS) (p : string) : bool := bool_decide (is_Some (fs !! p)).

(** [os.stat(p).st_size], for a path that exists. *)
Definition st_size (f : File) : nat := String.length (contents f).

(** The calls that can fail for reasons outside the model (permissions,
    a full disk, an interrupt): the environment decides, from the call and
    the state of the file system, whether each one raises. *)
Inductive IOCall :=
| OpenW (p : string)                 (* open(p, 'w') *)
| Dump (p : string) (text : string)  (* json.dump(_, fd, indent=2) *)
| CopyMode (src dst : string)        (* shutil.copymode(src, dst) *)
| Move (src dst : string)            (* shutil.move(src, dst) *)
| OpenR (p : string).                (* open(p) *)

(** ** Exceptions *)

Inductive Exn :=
| KeyError
| AttributeError
| NotImplementedError
| FileNotFoundError
| PermissionError
| OSError
| SerializationError   (* raised by apischema.serialize *)
| JSONDecodeError      (* raised by json.load *)
| ValidationError.     (* raised by apischema.deserialize *)

Global Instance Exn_eq_dec : EqDecision Exn.
Proof. solve_decision. Defined.

Inductive Res (A : Type) :=
| Ok (a : A)
| Raise (e : Exn).
Arguments Ok {A} a.
Arguments Raise {A} e.

(** ** Entries and the Root

    [superscore.model] is a module of its own. *)

Abbreviation UUID := N (only parsing).

(** Modelled from the spec: the [Entry] and [Root] classes of
    [superscore.model]. An entry is a uniquely identified node, may own an
    ordered sequence of children, and has fields that refer to other
    entries without owning them. A place that holds [Union[Entry, UUID]]
    holds an [Item]: an entry object or a bare identifier.

    The backend never assigns an entry's [uuid] or [children]; the only
    mutation it causes is the reference swap on the referring fields. So an
    entry object is split in two: its immutable skeleton (identity [oid],
    [uuid], [children]; [None] when the entry has no [children] attribute)
    is the [Item] itself, while its referring fields live in the object
    store, keyed by [oid]. Two occurrences of one skeleton alias the same
    referring fields, as two Python references to one object do. *)
Inductive Item :=
| EntryObj (oid : positive) (uuid : UUID) (children : option (list Item))
| BareUUID (u : UUID).

Record Root := mkRoot { entries : list Item }.

(** The referring fields of every live object, and the next free identity. *)
Record Heap := mkHeap {
  refs : gmap positive (list Item);
  next_oid : positive
}.

Definition item_uuid (i : Item) : UUID :=
  match i with EntryObj _ u _ => u | BareUUID u => u end.

Definition fields_of (h : Heap) (oid : positive) : list Item :=
  default [] (refs h !! oid).

(** ** The environment

    What the backend calls and does not define: [apischema] and [json]
    (the codec), [uuid4], the operating system's verdict on each fallible
    file call, and [superscore.utils]. *)
Record Env := mkEnv {
  Json : Type;
  (** [serialize(Root, obj)]: [obj] is a Root or [None]; reads the referring
      fields from the heap; no result when it raises. *)
  serialize : Heap -> option Root -> option Json;
  (** [deserialize(Root, data)]: allocates the objects of the new Root. *)
  deserialize : Heap -> Json -> option (Root * Heap);
  (** the text [json.dump(data, fd, indent=2)] writes *)
  json_dump : Json -> string;
  (** [json.load(fp)] on the text of a file *)
  json_load : string -> option Json;
  (** [str(uuid4())] of the n-th draw *)
  uuid4_str : nat -> string;
  (** whether the call raises on this file system *)
  io_fails : IOCall -> FS -> bool;
  (** the text left in the file by a [json.dump] that raises *)
  torn : string -> string;
  (** permission bits of a newly created file *)
  new_file_mode : N;
  (** [superscore.utils.build_abs_path] *)
  build_abs_path : string -> string -> string
}.

(** ** State

    [_entry_cache] and [_uuid_link_cache] are class attributes of
    [FilestoreBackend]: one dict and one defaultdict shared by every
    instance. They belong to the world, next to the file system and the
    heap. An instance has its [path], its [_root], and an [_entry_cache] of
    its own only once [clear_cache] has assigned one. *)
Record World := mkWorld {
  fs : FS;
  heap : Heap;
  draws : nat;                                (* uuid4 calls so far *)
  cls_entry_cache : gmap UUID Item;
  cls_uuid_link_cache : gmap UUID (gset UUID)
}.

Record Self := mkSelf {
  path : string;
  _root : option Root;
  own_entry_cache : option (gmap UUID Item)
}.

(** Attribute lookup [self._entry_cache]: the instance's, else the class's. *)
Definition _entry_cache (self : Self) (w : World) : gmap UUID Item :=
  default (cls_entry_cache w) (own_entry_cache self).

(** [self._uuid_link_cache[u]] read through the defaultdict. *)
Definition links (w : World) (u : UUID) : gset UUID :=
  default ∅ (cls_uuid_link_cache w !! u).

Definition set_fs (f : FS) (w : World) : World :=
  mkWorld f (heap w) (draws w) (cls_entry_cache w) (cls_uuid_link_cache w).
Definition set_heap (h : Heap) (w : World) : World :=
  mkWorld (fs w) h (draws w) (cls_entry_cache w) (cls_uuid_link_cache w).
Definition set_draws (n : nat) (w : World) : World :=
  mkWorld (fs w) (heap w) n (cls_entry_cache w) (cls_uuid_link_cache w).
Definition set_cls_entry_cache (c : gmap UUID Item) (w : World) : World :=
  mkWorld (fs w) (heap w) (draws w) c (cls_uuid_link_cache w).
Definition set_cls_uuid_link_cache (l : gmap UUID (gset UUID)) (w : World) : World :=
  mkWorld (fs w) (heap w) (draws w) (cls_entry_cache w) l.
Definition set_root (r : option Root) (self : Self) : Self :=
  mkSelf (path self) r (own_entry_cache self).
Definition set_own_entry_cache (c : option (gmap UUID Item)) (self : Self) : Self :=
  mkSelf (path self) (_root self) c.

(** ** Methods as state transformers that may raise

    A method runs on the instance and the world and gives back both, also
    when it raises: what was mutated before the exception stays mutated. *)
Definition M (A : Type) : Type := Self -> World -> Res A * Self * World.

Definition ret {A} (a : A) : M A := fun self w => (Ok a, self, w).

Definition raise {A} (e : Exn) : M A := fun self w => (Raise e, self, w).

Definition bind {A B} (m : M A) (k : A -> M B) : M B :=
  fun self w =>
    match m self w with
    | (Ok a, self', w') => k a self' w'
    | (Raise e, self', w') => (Raise e, self', w')
    end.

Notation "'let*' x ':=' m 'in' k" := (bind m (fun x => k))
  (at level 10, x pattern, m at level 100, k at level 200, only parsing).
Notation "m ';;' k" := (bind m (fun _ => k))
  (at level 100, k at level 200, only parsing).

(** [try: body  except <handles>: handler(ex)]; other exceptions pass. *)
Definition try_except {A} (body : M A) (handles : Exn -> bool)
    (handler : Exn -> M A) : M A :=
  fun self w =>
    match body self w with
    | (Ok a, self', w') => (Ok a, self', w')
    | (Raise e, self', w') =>
        if handles e then handler e self' w' else (Raise e, self', w')
    end.

(** [for x in l: body(x)] *)
Definition for_ {A} (body : A -> M unit) : list A -> M unit :=
  fix go l :=
    match l with
    | [] => ret tt
    | x :: l' => body x ;; go l'
    end.

Definition get_self : M Self := fun self w => (Ok self, self, w).
Definition get_world : M World := fun self w => (Ok w, self, w).
Definition modify_self (f : Self -> Self) : M unit := fun self w => (Ok tt, f self, w).
Definition modify_world (f : World -> World) : M unit := fun self w => (Ok tt, self, f w).

(** *** File calls *)

Definition os_path_exists (p : string) : M bool :=
  let* w := get_world in ret (exists_ (fs w) p).

(** [open(p, 'w')]: creates the file, or truncates it and keeps its mode. *)
Definition open_w (env : Env) (p : string) : M unit :=
  let* w := get_world in
  if io_fails env (OpenW p) (fs w) then raise OSError
  else
    let m := match fs w !! p with Some f => mode f | None => new_file_mode env end in
    modify_world (set_fs (<[p := mkFile "" m]> (fs w))).

(** [json.dump(data, fd, indent=2)] on the file opened at [p]. *)
Definition json_dump_to (env : Env) (p : string) (data : Json env) : M unit :=
  let* w := get_world in
  let text := json_dump env data in
  if io_fails env (Dump p text) (fs w) then
    modify_world (set_fs (alter (fun f => mkFile (torn env text) (mode f)) p (fs w))) ;;
    raise OSError
  else
    modify_world (set_fs (alter (fun f => mkFile text (mode f)) p (fs w))).

Definition shutil_copymode (env : Env) (src dst : string) : M unit :=
  let* w := get_world in
  if io_fails env (CopyMode src dst) (fs w) then raise OSError
  else
    match fs w !! src with
    | None => raise FileNotFoundError
    | Some f =>
        modify_world (set_fs (alter (fun g => mkFile (contents g) (mode f)) dst (fs w)))
    end.

(** [shutil.move(src, dst)] between two names of one directory: a rename. *)
Definition shutil_move (env : Env) (src dst : string) : M unit :=
  let* w := get_world in
  if io_fails env (Move src dst) (fs w) then raise OSError
  else
    match fs w !! src with
    | None => raise FileNotFoundError
    | Some f => modify_world (set_fs (<[dst := f]> (delete src (fs w))))
    end.

Definition os_remove (p : string) : M unit :=
  let* w := get_world in modify_world (set_fs (delete p (fs w))).

(** [with open(p) as fp: fp.read()] *)
Definition read_text (env : Env) (p : string) : M string :=
  let* w := get_world in
  match fs w !! p with
  | None => raise FileNotFoundError
  | Some f => if io_fails env (OpenR p) (fs w) then raise OSError else ret (contents f)
  end.

(** ** core.py: the interface every backend implements *)

Module _Backend.

Definition get_entry (meta_id : UUID) : M Item := raise NotImplementedError.

Definition save_entry (entry : Item) : M unit := raise NotImplementedError.

Definition delete_entry (entry : Item) : M unit := raise NotImplementedError.

Definition update_entry (entry : Item) : M unit := raise NotImplementedError.

Definition search (search_kwargs : list (string * string)) : M (list Item) :=
  raise NotImplementedError.

End _Backend.

(** ** filestore.py *)

(** Modelled from the spec: [Entry.swap_to_uuids] of [superscore.model].
    Every field that holds an entry is rewritten to hold that entry's
    identifier, and the set of identifiers now referred to is returned. A
    [UUID] has no such method. *)
Definition swap_to_uuids (entry : Item) : M (gset UUID) :=
  match entry with
  | BareUUID _ => raise AttributeError
  | EntryObj oid _ _ =>
      let* w := get_world in
      let ids := item_uuid <$> fields_of (heap w) oid in
      modify_world (set_heap (mkHeap (<[oid := BareUUID <$> ids]> (refs (heap w)))
                                     (next_oid (heap w)))) ;;
      ret (list_to_set ids)
  end.

(** What [store] is called with: a Root, or the [{}] of [initialize]. *)
Inductive StoreArg :=
| ARoot (r : Root)
| AEmptyDict.

Module FilestoreBackend.

(** [self._entry_cache[k] = v]: item assignment on the dict the attribute
    lookup finds. *)
Definition entry_cache_setitem (k : UUID) (v : Item) : M unit :=
  fun self w =>
    match own_entry_cache self with
    | Some c => (Ok tt, set_own_entry_cache (Some (<[k := v]> c)) self, w)
    | None => (Ok tt, self, set_cls_entry_cache (<[k := v]> (cls_entry_cache w)) w)
    end.

(** [self._uuid_link_cache[k].update(ids)] on the class's defaultdict. *)
Definition uuid_link_cache_update (k : UUID) (ids : gset UUID) : M unit :=
  modify_world (fun w =>
    set_cls_uuid_link_cache (<[k := links w k ∪ ids]> (cls_uuid_link_cache w)) w).

Definition maybe_add_to_cache (item : Item) : M unit :=
  match item with
  | BareUUID _ => ret tt
  | EntryObj _ meta_id _ =>
      let* self := get_self in
      let* w := get_world in
      if decide (is_Some (_entry_cache self w !! meta_id)) then
        (* duplicate uuids found *)
        ret tt
      else entry_cache_setitem meta_id item
  end.

Fixpoint flatten_and_cache (entry : Item) : M unit :=
  (* for child in getattr(entry, 'children', []) *)
  match entry with
  | EntryObj _ _ (Some children) =>
      for_ (fun child => maybe_add_to_cache child ;; flatten_and_cache child) children
  | _ => ret tt
  end ;;
  let* uuid_refs := swap_to_uuids entry in
  uuid_link_cache_update (item_uuid entry) uuid_refs ;;
  maybe_add_to_cache entry.

(** The name [_temp_path] builds from the first eight characters of
    [str(uuid4())]. *)
Definition temp_name (path token : string) : string :=
  let directory := Posixpath.dirname path in
  let filename :=
    "_" +:+ String.substring 0 8 token +:+ "_" +:+ Posixpath.basename path in
  Posixpath.join directory filename.

Definition _temp_path (env : Env) : M string :=
  let* self := get_self in
  let* w := get_world in
  modify_world (set_draws (S (draws w))) ;;
  ret (temp_name (path self) (uuid4_str env (draws w))).

Definition py_serialize (env : Env) (obj : option Root) : M (Json env) :=
  let* w := get_world in
  match serialize env (heap w) obj with
  | Some data => ret data
  | None => raise SerializationError
  end.

(** The [try] suite of [store]. *)
Definition store_try (env : Env) (temp_path : string) (serialized : Json env)
    : M unit :=
  let* self := get_self in
  open_w env temp_path ;;
  json_dump_to env temp_path serialized ;;
  let* target_exists := os_path_exists (path self) in
  (if target_exists then shutil_copymode env (path self) temp_path else ret tt) ;;
  shutil_move env temp_path (path self).

(** The [except BaseException as ex] suite of [store]. *)
Definition store_except (temp_path : string) (ex : Exn) : M unit :=
  (* remove temporary file *)
  let* temp_exists := os_path_exists temp_path in
  (if temp_exists then os_remove temp_path else ret tt) ;;
  raise ex.

Definition store (env : Env) (root_node : option StoreArg) : M unit :=
  let* temp_path := _temp_path env in
  let* serialized :=
    match root_node with
    | None => let* self := get_self in py_serialize env (_root self)
    | Some _ => py_serialize env (Some (mkRoot []))
    end in
  try_except (store_try env temp_path serialized)
             (fun _ => true)
             (store_except temp_path).

Definition initialize (env : Env) : M unit :=
  let* self := get_self in
  let* w := get_world in
  (* Do not overwrite existing databases *)
  if exists_ (fs w) (path self)
     && match fs w !! path self with
        | Some f => bool_decide (0 < st_size f)
        | None => false
        end
  then raise PermissionError
  else
    (* Dump an empty dictionary *)
    store env (Some AEmptyDict).

Definition load (env : Env) : M Root :=
  let* self := get_self in
  let* text := read_text env (path self) in
  match json_load env text with
  | None => raise JSONDecodeError
  | Some serialized =>
      let* w := get_world in
      match deserialize env (heap w) serialized with
      | None => raise ValidationError
      | Some (r, h) => modify_world (set_heap h) ;; ret r
      end
  end.

Definition _load_or_initialize (env : Env) : M (gmap UUID Item) :=
  let* self := get_self in
  match _root self with
  | None =>
      try_except
        (let* r := load env in modify_self (set_root (Some r)))
        (fun e => bool_decide (e = FileNotFoundError))
        (fun _ =>
           initialize env ;;
           let* r := load env in modify_self (set_root (Some r)))
  | Some _ => ret tt
  end ;;
  (* flatten create entry cache *)
  let* self := get_self in
  match _root self with
  | None => raise AttributeError
  | Some r => for_ flatten_and_cache (entries r)
  end ;;
  let* self := get_self in
  let* w := get_world in
  ret (_entry_cache self w).

Definition __init__ (env : Env) (path : string) (initialize_ : bool)
    (cfg_path : option string) (w : World) : Res unit * Self * World :=
  let path' :=
    match cfg_path with
    | Some cfg => build_abs_path env (Posixpath.dirname cfg) path
    | None => path
    end in
  let self := mkSelf path' None None in
  if initialize_ then initialize env self w else (Ok tt, self, w).

Definition get_entry (meta_id : UUID) : M Item :=
  let* self := get_self in
  let* w := get_world in
  match _entry_cache self w !! meta_id with
  | Some e => ret e
  | None => raise KeyError
  end.

Definition save_entry (entry : Item) : M unit := raise NotImplementedError.

Definition update_entry (entry : Item) : M unit := raise NotImplementedError.

Definition delete_entry (entry : Item) : M unit := raise NotImplementedError.

Definition search (search_kwargs : list (string * string)) : M (list Item) :=
  raise NotImplementedError.

Definition clear_cache : M unit :=
  modify_self (set_own_entry_cache (Some ∅)) ;;
  modify_self (set_root None).

End FilestoreBackend.

(** The context manager: [with _load_and_store_context(backend) as db: body].
    When the body raises, the generator is left at its [yield] and
    [backend.store()] does not run. *)
Definition _load_and_store_context {A} (env : Env) (body : gmap UUID Item -> M A)
    : M A :=
  let* db := FilestoreBackend._load_or_initialize env in
  let* r := body db in
  FilestoreBackend.store env None ;;
  ret r.

(** The [root] property of [FilestoreBackend]. *)
Definition root (env : Env) : M (option Root) :=
  _load_and_store_context env (fun _ => let* self := get_self in ret (_root self)).

(** ** Notions used to state the properties *)

(** The outcome of running a method: result, instance, world. *)
Definition result_of {A} (out : Res A * Self * World) : Res A := out.1.1.
Definition self_of {A} (out : Res A * Self * World) : Self := out.1.2.
Definition world_of {A} (out : Res A * Self * World) : World := out.2.

(** [self._entry_cache] once the method has run. *)
Definition cache_of {A} (out : Res A * Self * World) : gmap UUID Item :=
  _entry_cache (self_of out) (world_of out).

(** The mode the target ends with after a [store]: its own when it
    existed, else the one the temporary file was created with. *)
Definition stored_mode (env : Env) (f : FS) (target temp_path : string) : N :=
  match f !! target with
  | Some g => mode g
  | None =>
      match f !! temp_path with
      | Some g => mode g
      | None => new_file_mode env
      end
  end.

(** A step that only adds: the entry cache keeps every binding it had, no
    link set loses an identifier, and path, held Root, files and the
    [uuid4] counter stay as they were. *)
Definition grows (self : Self) (w : World) (self' : Self) (w' : World) : Prop :=
  _entry_cache self w ⊆ _entry_cache self' w'
  ∧ (∀ u, links w u ⊆ links w' u)
  ∧ path self' = path self
  ∧ _root self' = _root self
  ∧ fs w' = fs w
  ∧ draws w' = draws w.

(** The flatten engine over a Root: the loop of [_load_or_initialize]. *)
Definition flatten_entries (r : Root) : M unit :=
  for_ FilestoreBackend.flatten_and_cache (entries r).

(** Whether the method returned, rather than raised. *)
Definition ok_of {A} (out : Res A * Self * World) : bool :=
  match result_of out with Ok _ => true | Raise _ => false end.

(** A method settles when it only adds to the caches, when its raising
    does not depend on the state, and when, run on a state whose entry
    cache already has every key an earlier run ended with, it leaves the
    entry cache as it is. *)
Definition settles {A} (m : M A) : Prop :=
  ∀ self w,
    grows self w (self_of (m self w)) (world_of (m self w))
    ∧ ∀ self2 w2,
        ok_of (m self w) = ok_of (m self2 w2)
        ∧ (dom (cache_of (m self w)) ⊆ dom (_entry_cache self2 w2) →
           cache_of (m self2 w2) = _entry_cache self2 w2).

(** The spec's classes of errors, and the class of each exception. *)
Inductive ErrorKind :=
| NotFound
| AlreadyExists
| IOFailure
| Unimplemented
| OtherError.

Global Instance ErrorKind_eq_dec : EqDecision ErrorKind.
Proof. solve_decision. Defined.

Definition kind_of (e : Exn) : ErrorKind :=
  match e with
  | KeyError | FileNotFoundError => NotFound
  | PermissionError => AlreadyExists
  | OSError => IOFailure
  | NotImplementedError => Unimplemented
  | _ => OtherError
  end.

(** ** A concrete environment

    A small JSON value type with the printer of [json.dump(_, indent=2)]
    and a parser, and a structural codec for Roots: enough to run the
    backend end to end. *)

Module MiniJson.

Inductive json :=
| JNum (n : N)
| JStr (s : string)
| JArr (items : list json)
| JObj (members : list (string * json)).

Definition quote : string := String "034"%char EmptyString.
Definition newline : string := String "010"%char EmptyString.

Fixpoint spaces (n : nat) : string :=
  match n with
  | O => EmptyString
  | S k => " " +:+ spaces k
  end.

Fixpoint digits_of (fuel : nat) (n : N) (acc : string) : string :=
  match fuel with
  | O => acc
  | S k =>
      let acc' := String (ascii_of_N (48 + n mod 10)) acc in
      if (n <? 10)%N then acc' else digits_of k (n / 10)%N acc'
  end.

Definition decimal (n : N) : string := digits_of (S (N.to_nat (N.log2 n))) n EmptyString.

(** Items one per line at depth [d + 1], closed at depth [d]. *)
Definition block (opening closing : string) (d : nat) (lines : list string) : string :=
  match lines with
  | [] => opening +:+ closing
  | l :: ls =>
      opening +:+ newline +:+ spaces (2 * S d) +:+ l
      +:+ foldr (fun x acc => "," +:+ newline +:+ spaces (2 * S d) +:+ x +:+ acc)
                (newline +:+ spaces (2 * d) +:+ closing) ls
  end.

Fixpoint dumps (d : nat) (v : json) : string :=
  match v with
  | JNum n => decimal n
  | JStr s => quote +:+ s +:+ quote
  | JArr items => block "[" "]" d (map (dumps (S d)) items)
  | JObj members =>
      block "{" "}" d
        (map (fun kv => quote +:+ kv.1 +:+ quote +:+ ": " +:+ dumps (S d) kv.2) members)
  end.

Inductive token :=
| TLBracket | TRBracket | TLBrace | TRBrace | TComma | TColon
| TNum (n : N)
| TStr (s : string).

Global Instance token_eq_dec : EqDecision token.
Proof. solve_decision. Defined.

Inductive lexst :=
| Idle
| InNum (n : N)
| InStr (rev_chars : string).

Definition digit (c : ascii) : option N :=
  let n := N_of_ascii c in
  if ((48 <=? n) && (n <=? 57))%N then Some (n - 48)%N else None.

(** One character read outside a number and a string. *)
Definition idle_step (c : ascii) : option (list token * lexst) :=
  if Ascii.is_space c then Some ([], Idle)
  else if decide (c = "["%char) then Some ([TLBracket], Idle)
  else if decide (c = "]"%char) then Some ([TRBracket], Idle)
  else if decide (c = "{"%char) then Some ([TLBrace], Idle)
  else if decide (c = "}"%char) then Some ([TRBrace], Idle)
  else if decide (c = ","%char) then Some ([TComma], Idle)
  else if decide (c = ":"%char) then Some ([TColon], Idle)
  else if decide (c = "034"%char) then Some ([], InStr EmptyString)
  else match digit c with
       | Some d => Some ([], InNum d)
       | None => None
       end.

Fixpoint lex (st : lexst) (s : string) : option (list token) :=
  match s with
  | EmptyString =>
      match st with
      | Idle => Some []
      | InNum n => Some [TNum n]
      | InStr _ => None
      end
  | String c r =>
      match st with
      | InStr acc =>
          if decide (c = "034"%char) then cons (TStr (String.rev acc)) <$> lex Idle r
          else lex (InStr (String c acc)) r
      | InNum n =>
          match digit c with
          | Some d => lex (InNum (10 * n + d)) r
          | None =>
              match idle_step c with
              | Some (ts, st') => (fun rest => TNum n :: ts ++ rest) <$> lex st' r
              | None => None
              end
          end
      | Idle =>
          match idle_step c with
          | Some (ts, st') => (fun rest => ts ++ rest) <$> lex st' r
          | None => None
          end
      end
  end.

(** [p (',' p)* close] *)
Fixpoint parse_seq {A} (p : list token -> option (A * list token)) (close : token)
    (fuel : nat) (ts : list token) : option (list A * list token) :=
  match fuel with
  | O => None
  | S k =>
      match p ts with
      | Some (a, TComma :: r) =>
          match parse_seq p close k r with
          | Some (l, r') => Some (a :: l, r')
          | None => None
          end
      | Some (a, t :: r) => if decide (t = close) then Some ([a], r) else None
      | _ => None
      end
  end.

Fixpoint parse_value (fuel : nat) (ts : list token) : option (json * list token) :=
  match fuel with
  | O => None
  | S k =>
      match ts with
      | TNum n :: r => Some (JNum n, r)
      | TStr s :: r => Some (JStr s, r)
      | TLBracket :: TRBracket :: r => Some (JArr [], r)
      | TLBracket :: r =>
          match parse_seq (parse_value k) TRBracket (length r) r with
          | Some (l, r') => Some (JArr l, r')
          | None => None
          end
      | TLBrace :: TRBrace :: r => Some (JObj [], r)
      | TLBrace :: r =>
          match
            parse_seq
              (fun ts' =>
                 match ts' with
                 | TStr key :: TColon :: r' =>
                     match parse_value k r' with
                     | Some (v, r'') => Some ((key, v), r'')
                     | None => None
                     end
                 | _ => None
                 end)
              TRBrace (length r) r
          with
          | Some (l, r') => Some (JObj l, r')
          | None => None
          end
      | _ => None
      end
  end.

Definition loads (text : string) : option json :=
  match lex Idle text with
  | Some ts =>
      match parse_value (length ts) ts with
      | Some (v, []) => Some v
      | _ => None
      end
  | None => None
  end.

End MiniJson.

Module Demo.

Import MiniJson.

(** Referring fields are written as identifiers; an entry that lacks the
    [children] attribute gets no [children] member. *)
Fixpoint item_json (h : Heap) (i : Item) : json :=
  match i with
  | BareUUID u => JNum u
  | EntryObj oid u ch =>
      JObj (("uuid", JNum u)
            :: match ch with
               | Some l => [("children", JArr (map (item_json h) l))]
               | None => []
               end
            ++ [("refs", JArr (map (fun r => JNum (item_uuid r)) (fields_of h oid)))])
  end.

Definition serialize (h : Heap) (obj : option Root) : option json :=
  match obj with
  | Some r => Some (JObj [("entries", JArr (map (item_json h) (entries r)))])
  | None => None
  end.

Fixpoint uuids_of_json (l : list json) : option (list Item) :=
  match l with
  | [] => Some []
  | JNum u :: l' => cons (BareUUID u) <$> uuids_of_json l'
  | _ => None
  end.

(** A new object: its referring fields go to the heap under a fresh
    identity. *)
Definition alloc (fields : list Item) (h : Heap) : positive * Heap :=
  (next_oid h, mkHeap (<[next_oid h := fields]> (refs h)) (Pos.succ (next_oid h))).

Fixpoint item_of_json (j : json) (h : Heap) : option (Item * Heap) :=
  let items_of_json :=
    fix go (l : list json) (h : Heap) : option (list Item * Heap) :=
      match l with
      | [] => Some ([], h)
      | j' :: l' =>
          match item_of_json j' h with
          | Some (i, h') =>
              match go l' h' with
              | Some (is_, h'') => Some (i :: is_, h'')
              | None => None
              end
          | None => None
          end
      end in
  match j with
  | JNum u => Some (BareUUID u, h)
  | JObj [(k1, JNum u); (k2, JArr rs)] =>
      if decide (k1 = "uuid" ∧ k2 = "refs") then
        match uuids_of_json rs with
        | Some fields => let (oid, h') := alloc fields h in Some (EntryObj oid u None, h')
        | None => None
        end
      else None
  | JObj [(k1, JNum u); (k2, JArr cs); (k3, JArr rs)] =>
      if decide (k1 = "uuid" ∧ k2 = "children" ∧ k3 = "refs") then
        match uuids_of_json rs with
        | Some fields =>
            let (oid, h') := alloc fields h in
            match items_of_json cs h' with
            | Some (children, h'') => Some (EntryObj oid u (Some children), h'')
            | None => None
            end
        | None => None
        end
      else None
  | _ => None
  end.

Fixpoint items_of_json (l : list json) (h : Heap) : option (list Item * Heap) :=
  match l with
  | [] => Some ([], h)
  | j :: l' =>
      match item_of_json j h with
      | Some (i, h') =>
          match items_of_json l' h' with
          | Some (is_, h'') => Some (i :: is_, h'')
          | None => None
          end
      | None => None
      end
  end.

Definition deserialize (h : Heap) (data : json) : option (Root * Heap) :=
  match data with
  | JObj [(k, JArr es)] =>
      if decide (k = "entries") then
        match items_of_json es h with
        | Some (l, h') => Some (mkRoot l, h')
        | None => None
        end
      else None
  | _ => None
  end.

Definition uuid4_str (n : nat) : string :=
  decimal (N.of_nat n + 40000000) +:+ "-1b2c-4d3e-8f40-5a6b7c8d9e0f".

Definition build_abs_path (basedir path : string) : string :=
  Posixpath.join basedir path.

(** The environment, for a given verdict on the fallible file calls. *)
Definition env (fails : IOCall -> FS -> bool) : Env :=
  mkEnv json serialize deserialize (dumps 0) loads uuid4_str fails
        (fun text => String.substring 0 (String.length text / 2) text)
        420 build_abs_path.

Definition no_fault : IOCall -> FS -> bool := fun _ _ => false.


Definition empty_heap : Heap := mkHeap ∅ 1.

Definition empty_world : World := mkWorld ∅ empty_heap 0 ∅ ∅.

Definition db_path : string := "/data/db.json".

(** [a] refers to [b]; [c] owns [d]. *)
Definition entry_b : Item := EntryObj 1 11 None.
Definition entry_a : Item := EntryObj 2 10 None.
Definition entry_d : Item := EntryObj 3 13 None.
Definition entry_c : Item := EntryObj 4 12 (Some [entry_d]).

Definition sample_heap : Heap :=
  mkHeap {[ 1%positive := []; 2%positive := [entry_b];
            3%positive := []; 4%positive := [] ]} 5.

Definition sample_root : Root := mkRoot [entry_a; entry_b; entry_c].

(** A backend that holds [sample_root], before anything is on disk. *)
Definition sample_world : World := mkWorld ∅ sample_heap 0 ∅ ∅.
Definition sample_self : Self := mkSelf db_path (Some sample_root) None.

(** A new backend on [db_path]. *)
Definition new_self : Self := mkSelf db_path None None.

(** The held Root written out by [store()]. *)
Definition stored_sample : Res () * Self * World :=
  FilestoreBackend.store (env no_fault) None sample_self sample_world.

(** [store(sample_root)]: the Root is passed as the argument. *)
Definition stored_argument : Res () * Self * World :=
  FilestoreBackend.store (env no_fault) (Some (ARoot sample_root))
    sample_self sample_world.


(** A fresh process that finds the document of [stored_sample] on disk. *)
Definition on_disk : World := mkWorld (fs (world_of stored_sample)) empty_heap 0 ∅ ∅.

(** The [root] property read on a new backend over that document. *)
Definition read_root : Res (option Root) * Self * World :=
  root (env no_fault) new_self on_disk.

(** A second object with the identifier of [entry_a]. *)
Definition entry_a_twin : Item := EntryObj 9 10 None.

End Demo.

(** ** More notions for stating properties *)

(** The world once [swap_to_uuids] has rewritten the referring fields of
    the object [oid] and its identifiers were added to the link set of [u]. *)
Definition after_swap_link (oid : positive) (u : UUID) (w : World) : World :=
  let ids := item_uuid <$> fields_of (heap w) oid in
  set_cls_uuid_link_cache
    (<[u := links w u ∪ list_to_set ids]> (cls_uuid_link_cache w))
    (set_heap (mkHeap (<[oid := BareUUID <$> ids]> (refs (heap w)))
                      (next_oid (heap w))) w).

(** The loop of [flatten_and_cache] over the children of an entry. *)
Definition children_loop : list Item -> M unit :=
  for_ (fun child =>
          FilestoreBackend.maybe_add_to_cache child ;;
          FilestoreBackend.flatten_and_cache child).

(** A tree of entry objects all the way down: no child is a bare
    identifier. *)
Fixpoint entries_only (i : Item) : bool :=
  match i with
  | BareUUID _ => false
  | EntryObj _ _ None => true
  | EntryObj _ _ (Some l) => forallb entries_only l
  end.

(** The identifiers of the entries of a tree. *)
Fixpoint tree_uuids (i : Item) : gset UUID :=
  match i with
  | BareUUID _ => ∅
  | EntryObj _ u None => {[ u ]}
  | EntryObj _ u (Some l) => {[ u ]} ∪ ⋃ (map tree_uuids l)
  end.

(** The identifiers the referring fields of an object hold or point to. *)
Definition field_ids (h : Heap) (oid : positive) : gset UUID :=
  list_to_set (item_uuid <$> fields_of h oid).

(** Every cached item is an entry object filed under its own identifier. *)
Definition cache_keyed (c : gmap UUID Item) : Prop :=
  ∀ u e, c !! u = Some e → ∃ oid ch, e = EntryObj oid u ch.

(** ** More concrete states *)

Module DemoMore.

Import Demo.

(** [initialize] on a new backend when nothing is on disk. *)
Definition initialized : Res () * Self * World :=
  FilestoreBackend.initialize (env no_fault) new_self empty_world.

(** First access of a new backend when nothing is on disk. *)
Definition first_access : Res (gmap UUID Item) * Self * World :=
  FilestoreBackend._load_or_initialize (env no_fault) new_self empty_world.

(** A file at [db_path] that is no JSON document. *)
Definition unreadable_world : World :=
  mkWorld {[ db_path := mkFile "not json" 384 ]} empty_heap 0 ∅ ∅.

(** The backend that holds [sample_root] flattens it. *)
Definition flattened : Res (gmap UUID Item) * Self * World :=
  FilestoreBackend._load_or_initialize (env no_fault) sample_self sample_world.

(** A world whose shared cache already answers for the identifier of
    [entry_a] with another object. *)
Definition twin_world : World :=
  set_cls_entry_cache {[ 10%N := entry_a_twin ]} sample_world.

(** The backend of [sample_self] once it has called [clear_cache]. *)
Definition cleared_self : Self :=
  self_of (FilestoreBackend.clear_cache sample_self sample_world).

End DemoMore.

(** ** Notions for what the caches hold *)

(** The entry cache once [maybe_add_to_cache] was given [item]. *)
Definition file_first (c : gmap UUID Item) (item : Item) : gmap UUID Item :=
  match item with
  | BareUUID _ => c
  | EntryObj _ meta_id _ =>
      match c !! meta_id with
      | Some _ => c
      | None => <[meta_id := item]> c
      end
  end.

(** The items [flatten_and_cache] gives to [maybe_add_to_cache] on a tree
    of entry objects, in the order of the calls: each child before its
    subtree is flattened, and every entry once more at the end of its own
    flattening. *)
Fixpoint discovered (i : Item) : list Item :=
  match i with
  | BareUUID _ => []
  | EntryObj _ _ None => [i]
  | EntryObj _ _ (Some l) => concat (map (fun c => c :: discovered c) l) ++ [i]
  end.

(** The same for the loop of [_load_or_initialize] over a Root. *)
Definition discovered_in (r : Root) : list Item :=
  concat (map discovered (entries r)).

Definition is_entry_with (u : UUID) (i : Item) : bool :=
  match i with
  | EntryObj _ u' _ => bool_decide (u' = u)
  | BareUUID _ => false
  end.

(** A Root with two objects under one identifier. *)
Definition twin_root : Root := mkRoot [Demo.entry_a; Demo.entry_a_twin; Demo.entry_c].

(** * Properties *)

(** ** Paths: the temporary name never is the target *)

Module PosixpathFacts.

Import Posixpath.

Lemma app_cons c a b : String c a +:+ b = String c (a +:+ b).
Proof. reflexivity. Qed.

Lemma app_nil_l a : "" +:+ a = a.
Proof. reflexivity. Qed.

Lemma app_assoc a b c : (a +:+ b) +:+ c = a +:+ (b +:+ c).
Proof. induction a as [|x a IH]; [done|]. by rewrite !app_cons, IH. Qed.

Lemma app_length a b : String.length (a +:+ b) = String.length a + String.length b.
Proof. induction a as [|x a IH]; [done|]. rewrite app_cons. simpl. by rewrite IH. Qed.

Lemma app_inv_tail a b c : a +:+ c = b +:+ c → a = b.
Proof.
  revert b. induction a as [|x a IH]; intros [|y b] H.
  - done.
  - apply (f_equal String.length) in H. rewrite !app_length in H. simpl in H. lia.
  - apply (f_equal String.length) in H. rewrite !app_length in H. simpl in H. lia.
  - rewrite !app_cons in H. injection H as -> H. f_equal. by apply IH.
Qed.

Lemma last_char_snoc a c : last_char (a +:+ String c "") = Some c.
Proof.
  induction a as [|x a IH]; [done|].
  rewrite app_cons. simpl. rewrite IH.
  destruct a; reflexivity.
Qed.

Lemma has_sep_false_rsplit p : has_sep p = false → rsplit p = ("", p).
Proof.
  destruct p as [|c r]; [done|]. simpl.
  intros [Hc Hr]%orb_false_iff. by rewrite Hr, Hc.
Qed.

Lemma rsplit_app p : (rsplit p).1 +:+ (rsplit p).2 = p.
Proof.
  induction p as [|c r IH]; [done|]. simpl.
  destruct (has_sep r); simpl.
  - by rewrite app_cons, IH.
  - destruct (is_sep c); reflexivity.
Qed.

(** The part before the base name is empty or ends with the separator. *)
Lemma rsplit_head p : (rsplit p).1 = "" ∨ last_char (rsplit p).1 = Some sep.
Proof.
  induction p as [|c r IH]; [by left|]. simpl.
  destruct (has_sep r) eqn:Hr; simpl.
  - right. destruct IH as [IH|IH].
    + exfalso. clear c. induction r as [|d r IHr]; [done|].
      simpl in *. destruct (has_sep r) eqn:Hr'; simpl in *; [done|].
      destruct (is_sep d); done.
    + destruct (rsplit r).1; [done|exact IH].
  - unfold is_sep. case_bool_decide as Hc; simpl; [right; by subst|by left].
Qed.

Lemma join_tail a b :
  startswith_sep b = false → ∃ x, join a b = x +:+ b.
Proof.
  intros Hb. unfold join. rewrite Hb.
  destruct (is_empty a || endswith_sep a).
  - by exists a.
  - exists (a +:+ String sep ""). by rewrite app_assoc.
Qed.

End PosixpathFacts.

(** The name [_temp_path] returns differs from the path of the database,
    whatever [uuid4] draws. *)
Lemma temp_name_ne_path path token :
  FilestoreBackend.temp_name path token ≠ path.
Proof.
  unfold FilestoreBackend.temp_name, Posixpath.basename. intros H.
  destruct (PosixpathFacts.join_tail (Posixpath.dirname path)
    ("_" +:+ String.substring 0 8 token +:+ "_" +:+ (Posixpath.rsplit path).2))
    as [x Hx]; [done|].
  rewrite Hx in H. clear Hx.
  pose proof (PosixpathFacts.rsplit_app path) as Hp.
  pose proof (PosixpathFacts.rsplit_head path) as Hh.
  destruct (Posixpath.rsplit path) as [hd base]. simpl in *.
  set (sub := String.substring 0 8 token) in H.
  assert (Ha : x +:+ "_" +:+ sub +:+ "_" +:+ base
               = ((x +:+ "_" +:+ sub) +:+ "_") +:+ base).
  { by rewrite !PosixpathFacts.app_assoc. }
  rewrite Ha, <- Hp in H.
  apply PosixpathFacts.app_inv_tail in H.
  pose proof (PosixpathFacts.last_char_snoc (x +:+ "_" +:+ sub) "_"%char) as Hl.
  rewrite H in Hl.
  destruct Hh as [->| Hh]; [done|]. rewrite Hh in Hl. discriminate.
Qed.

(** ** Running the methods *)

Import FilestoreBackend.

Lemma exists_true (f : FS) p : exists_ f p = true ↔ is_Some (f !! p).
Proof. unfold exists_. by rewrite bool_decide_eq_true. Qed.

Lemma exists_false (f : FS) p : exists_ f p = false ↔ f !! p = None.
Proof. unfold exists_. by rewrite bool_decide_eq_false, eq_None_not_Some. Qed.

Lemma bind_ok {A B} (m : M A) (k : A → M B) self w b self' w' :
  bind m k self w = (Ok b, self', w') →
  ∃ a self1 w1, m self w = (Ok a, self1, w1) ∧ k a self1 w1 = (Ok b, self', w').
Proof.
  unfold bind. destruct (m self w) as [[[a|e] self1] w1]; [|done].
  intros H. by exists a, self1, w1.
Qed.

Lemma bind_raise {A B} (m : M A) (k : A → M B) self w e self' w' :
  bind m k self w = (Raise e, self', w') →
  m self w = (Raise e, self', w')
  ∨ ∃ a self1 w1, m self w = (Ok a, self1, w1) ∧ k a self1 w1 = (Raise e, self', w').
Proof.
  unfold bind. destruct (m self w) as [[[a|e'] self1] w1].
  - intros H. right. by exists a, self1, w1.
  - intros H. left. congruence.
Qed.

Section Store.

Context (env : Env).

Lemma store_except_spec temp_path ex self w :
  store_except temp_path ex self w
  = (Raise ex, self, set_fs (delete temp_path (fs w)) w).
Proof.
  unfold store_except, os_path_exists, os_remove, bind, get_world, ret, raise,
    modify_world. simpl.
  destruct (exists_ (fs w) temp_path) eqn:He; simpl; [done|].
  apply exists_false in He. rewrite delete_id by done. by destruct w.
Qed.

Lemma store_try_spec temp_path data self w :
  temp_path ≠ path self →
  ∃ r f,
    store_try env temp_path data self w = (r, self, set_fs f w)
    ∧ (r = Raise OSError ∧ delete temp_path f = delete temp_path (fs w)
       ∨ r = Ok tt
         ∧ f = <[path self :=
                   mkFile (json_dump env data)
                          (stored_mode env (fs w) (path self) temp_path)]>
                 (delete temp_path (fs w))).
Proof.
  intros Hne.
  unfold store_try, open_w, json_dump_to, os_path_exists, shutil_copymode,
    shutil_move, bind, get_self, get_world, ret, raise, modify_world.
  simpl.
  destruct (io_fails env (OpenW temp_path) (fs w)); simpl.
  { exists (Raise OSError), (fs w). split; [by destruct w|by left]. }
  set (m0 := match fs w !! temp_path with
             | Some f => mode f
             | None => new_file_mode env
             end).
  rewrite alter_insert_eq. simpl.
  destruct (io_fails env (Dump temp_path (json_dump env data)) _); simpl.
  { eexists _, _. split; [reflexivity|left]. split; [done|].
    by rewrite delete_insert_eq. }
  rewrite alter_insert_eq. simpl.
  unfold exists_, stored_mode. rewrite lookup_insert_ne by done.
  destruct (fs w !! path self) as [g|] eqn:Hg; simpl.
  - destruct (io_fails env (CopyMode _ _) _); simpl.
    { eexists _, _. split; [reflexivity|left]. split; [done|].
      by rewrite delete_insert_eq. }
    rewrite lookup_insert_ne, Hg by done. simpl.
    rewrite alter_insert_eq. simpl.
    destruct (io_fails env (Move _ _) _); simpl.
    { eexists _, _. split; [reflexivity|left]. split; [done|].
      by rewrite delete_insert_eq. }
    rewrite lookup_insert_eq. simpl.
    eexists _, _. split; [reflexivity|right]. split; [done|].
    by rewrite delete_insert_eq.
  - destruct (io_fails env (Move _ _) _); simpl.
    { eexists _, _. split; [reflexivity|left]. split; [done|].
      by rewrite delete_insert_eq. }
    rewrite lookup_insert_eq. simpl.
    eexists _, _. split; [reflexivity|right]. split; [done|].
    by rewrite delete_insert_eq.
Qed.

(** What one call of [store] does: it draws one name, and then either the
    serialization raises and nothing else happens, or a file call raises
    and the temporary file is gone, or the target holds the new text. *)
Lemma store_cases root_node self w :
  let temp_path := temp_name (path self) (uuid4_str env (draws w)) in
  let obj := match root_node with
             | None => _root self
             | Some _ => Some (mkRoot [])
             end in
  ∃ r f,
    store env root_node self w = (r, self, set_fs f (set_draws (S (draws w)) w))
    ∧ (serialize env (heap w) obj = None
       ∧ r = Raise SerializationError ∧ f = fs w
       ∨ (∃ data, serialize env (heap w) obj = Some data)
         ∧ r = Raise OSError ∧ f = delete temp_path (fs w)
       ∨ ∃ data, serialize env (heap w) obj = Some data
         ∧ r = Ok tt
         ∧ f = <[path self :=
                   mkFile (json_dump env data)
                          (stored_mode env (fs w) (path self) temp_path)]>
                 (delete temp_path (fs w))).
Proof.
  intros temp_path obj.
  pose proof (temp_name_ne_path (path self) (uuid4_str env (draws w))) as Hne.
  fold temp_path in Hne.
  assert (Hs : store env root_node self w
    = match serialize env (heap w) obj with
      | Some data =>
          try_except (store_try env temp_path data) (λ _, true)
            (store_except temp_path) self (set_draws (S (draws w)) w)
      | None => (Raise SerializationError, self, set_draws (S (draws w)) w)
      end).
  { unfold store, _temp_path, py_serialize, bind, get_self, get_world,
      modify_world, ret, raise. simpl. subst obj.
    destruct root_node; simpl; by destruct (serialize env (heap w) _). }
  rewrite Hs. clear Hs.
  destruct (serialize env (heap w) obj) as [data|].
  2:{ eexists _, (fs w). split; [by destruct w|]. by left. }
  unfold try_except.
  destruct (store_try_spec temp_path data self (set_draws (S (draws w)) w) Hne)
    as (r & f & -> & [[-> Hf]|[-> Hf]]).
  - rewrite store_except_spec. simpl.
    eexists _, _. split; [reflexivity|]. right; left. eauto.
  - eexists _, _. split; [reflexivity|]. right; right. eauto.
Qed.

Lemma store_ignores_argument (a b : StoreArg) :
  store env (Some a) = store env (Some b).
Proof. reflexivity. Qed.

(** A [store] that returns has serialized the held Root, or an empty one
    when it was given an argument, and the target holds that text. *)
Lemma store_returns root_node self w self' w' :
  store env root_node self w = (Ok tt, self', w') →
  ∃ data,
    serialize env (heap w)
      match root_node with
      | None => _root self
      | Some _ => Some (mkRoot [])
      end = Some data
    ∧ contents <$> fs w' !! path self = Some (json_dump env data)
    ∧ self' = self.
Proof.
  intros H.
  destruct (store_cases root_node self w) as (r & f & Hs & Hc).
  rewrite H in Hs. injection Hs as Hr Hself Hw. subst r self' w'.
  destruct Hc as [(_ & ? & _)|[(_ & ? & _)|(data & Hd & _ & ->)]]; [done..|].
  exists data. simpl. by rewrite lookup_insert_eq.
Qed.

(** C1: [store] called with an argument serializes an empty Root, whatever
    Root was passed, and [store()] serializes the Root the backend holds;
    when the call returns, that text is what the target path holds. *)
Theorem store_serializes_held_or_empty root_node self w self' w' :
  store env root_node self w = (Ok tt, self', w') →
  ∃ data,
    serialize env (heap w)
      match root_node with
      | None => _root self
      | Some _ => Some (mkRoot [])
      end = Some data
    ∧ contents <$> fs w' !! path self = Some (json_dump env data)
    ∧ self' = self.
Proof. apply store_returns. Qed.


(** C7: [initialize] on a path that holds a non-empty file raises
    [PermissionError] and changes nothing: the file keeps its bytes and no
    file is written. *)
Theorem initialize_refuses_nonempty self w f :
  fs w !! path self = Some f →
  contents f ≠ "" →
  initialize env self w = (Raise PermissionError, self, w).
Proof.
  intros Hf Hc. unfold initialize, bind, get_self, get_world, raise. simpl.
  rewrite Hf. unfold exists_. rewrite Hf. simpl.
  rewrite bool_decide_eq_true_2; [done|].
  unfold st_size. destruct (contents f); [done|simpl; lia].
Qed.

End Store.

Lemma store_serializes_held_or_empty_witness :
  (Demo.stored_argument
   = (Ok tt, self_of Demo.stored_argument, world_of Demo.stored_argument)
   ∧ ∃ data,
       Demo.serialize (heap Demo.sample_world) (Some (mkRoot [])) = Some data
       ∧ contents <$> fs (world_of Demo.stored_argument) !! Demo.db_path
         = Some (MiniJson.dumps 0 data)
       ∧ self_of Demo.stored_argument = Demo.sample_self)
  ∧ (Demo.stored_sample
     = (Ok tt, self_of Demo.stored_sample, world_of Demo.stored_sample)
     ∧ ∃ data,
         Demo.serialize (heap Demo.sample_world) (Some Demo.sample_root) = Some data
         ∧ contents <$> fs (world_of Demo.stored_sample) !! Demo.db_path
           = Some (MiniJson.dumps 0 data)
         ∧ self_of Demo.stored_sample = Demo.sample_self).
Proof.
  assert (H1 : Demo.stored_argument
    = (Ok tt, self_of Demo.stored_argument, world_of Demo.stored_argument))
    by (vm_compute; reflexivity).
  assert (H2 : Demo.stored_sample
    = (Ok tt, self_of Demo.stored_sample, world_of Demo.stored_sample))
    by (vm_compute; reflexivity).
  split; (split; [assumption|]).
  - exact (store_serializes_held_or_empty (Demo.env Demo.no_fault)
             (Some (ARoot Demo.sample_root)) Demo.sample_self Demo.sample_world
             _ _ H1).
  - exact (store_serializes_held_or_empty (Demo.env Demo.no_fault)
             None Demo.sample_self Demo.sample_world _ _ H2).
Defined.


Lemma initialize_refuses_nonempty_witness :
  (∃ f, fs Demo.on_disk !! path Demo.new_self = Some f ∧ contents f ≠ "")
  ∧ initialize (Demo.env Demo.no_fault) Demo.new_self Demo.on_disk
    = (Raise PermissionError, Demo.new_self, Demo.on_disk).
Proof.
  assert (H : ∃ f, fs Demo.on_disk !! path Demo.new_self = Some f ∧ contents f ≠ "").
  { eexists. split; [vm_compute; reflexivity|]. discriminate. }
  split; [exact H|].
  destruct H as (f & Hf & Hc).
  exact (initialize_refuses_nonempty (Demo.env Demo.no_fault) _ _ f Hf Hc).
Defined.


(** ** The flatten engine *)

Section Flatten.

Lemma Item_ind' (P : Item → Prop) :
  (∀ u, P (BareUUID u)) →
  (∀ oid u, P (EntryObj oid u None)) →
  (∀ oid u l, Forall P l → P (EntryObj oid u (Some l))) →
  ∀ i, P i.
Proof.
  intros Hu Hn Hs.
  fix IH 1. intros [oid u [l|]|u]; [|apply Hn|apply Hu].
  apply Hs. induction l as [|c l IHl]; constructor; [apply IH|apply IHl].
Qed.

Lemma grows_refl self w : grows self w self w.
Proof. unfold grows. naive_solver. Qed.

Lemma grows_trans s1 w1 s2 w2 s3 w3 :
  grows s1 w1 s2 w2 → grows s2 w2 s3 w3 → grows s1 w1 s3 w3.
Proof.
  unfold grows. intros (?&Hl&?&?&?&?) (?&Hl'&?&?&?&?).
  split; [by etrans|]. split; [intros u; etrans; [apply Hl|apply Hl']|].
  repeat split; congruence.
Qed.

Lemma maybe_add_to_cache_run item self w :
  ∃ self' w',
    maybe_add_to_cache item self w = (Ok tt, self', w')
    ∧ _entry_cache self' w'
      = match item with
        | BareUUID _ => _entry_cache self w
        | EntryObj _ meta_id _ =>
            match _entry_cache self w !! meta_id with
            | Some _ => _entry_cache self w
            | None => <[meta_id := item]> (_entry_cache self w)
            end
        end
    ∧ cls_uuid_link_cache w' = cls_uuid_link_cache w
    ∧ heap w' = heap w
    ∧ grows self w self' w'.
Proof.
  destruct item as [oid u ch|u]; simpl.
  2:{ exists self, w. by eauto using grows_refl. }
  unfold bind, get_self, get_world, ret. simpl.
  destruct (decide (is_Some (_entry_cache self w !! u))) as [[e He]|Hn].
  - rewrite He. exists self, w. eauto 10 using grows_refl.
  - apply eq_None_not_Some in Hn. rewrite Hn.
    unfold entry_cache_setitem, grows, _entry_cache in *.
    destruct (own_entry_cache self) as [c|] eqn:Ho; simpl in *;
      (eexists _, _; split; [reflexivity|]); simpl; rewrite ?Ho; simpl;
      repeat split; try done; by apply insert_subseteq.
Qed.

Lemma grows_dom self w self' w' :
  grows self w self' w' → dom (_entry_cache self w) ⊆ dom (_entry_cache self' w').
Proof. intros (H & _). by apply subseteq_dom. Qed.

Lemma settles_ret {A} (a : A) : settles (ret a).
Proof. intros self w. split; [apply grows_refl|]. intros self2 w2. done. Qed.

Lemma settles_raise {A} e : settles (raise (A := A) e).
Proof. intros self w. split; [apply grows_refl|]. intros self2 w2. done. Qed.

Lemma settles_bind {B} (m : M ()) (k : () → M B) :
  settles m → settles (k ()) → settles (bind m k).
Proof.
  intros Hm Hk self w.
  destruct (Hm self w) as [Hg Hm2].
  unfold bind, settles, cache_of, self_of, world_of, ok_of, result_of in *.
  destruct (m self w) as [[[[]|e] self1] w1] eqn:E1; simpl in *.
  - destruct (Hk self1 w1) as [Hg' Hk2]. split; [by eapply grows_trans|].
    intros self2 w2. destruct (Hm2 self2 w2) as [Hok Hab].
    destruct (m self2 w2) as [[[[]|e2] self2a] w2a] eqn:E2; simpl in *; [|done].
    destruct (Hk2 self2a w2a) as [Hok' Hab']. split; [done|]. intros Hd.
    assert (Hc : _entry_cache self2a w2a = _entry_cache self2 w2).
    { apply Hab. etrans; [|exact Hd]. by apply grows_dom. }
    rewrite <- Hc. apply Hab'. by rewrite Hc.
  - split; [done|]. intros self2 w2. destruct (Hm2 self2 w2) as [Hok Hab].
    destruct (m self2 w2) as [[[[]|e2] self2a] w2a] eqn:E2; simpl in *; [done|].
    split; [done|]. exact Hab.
Qed.

Lemma settles_for {A} (body : A → M ()) l :
  Forall (λ x, settles (body x)) l → settles (for_ body l).
Proof.
  induction 1 as [|x l Hx Hl IH]; simpl; [apply settles_ret|].
  by apply settles_bind.
Qed.

Lemma settles_maybe_add_to_cache item : settles (maybe_add_to_cache item).
Proof.
  intros self w. unfold cache_of, self_of, world_of, ok_of, result_of.
  destruct (maybe_add_to_cache_run item self w)
    as (self' & w' & -> & Hc & _ & _ & Hg); simpl.
  split; [done|]. intros self2 w2.
  destruct (maybe_add_to_cache_run item self2 w2)
    as (self2' & w2' & -> & Hc2 & _ & _ & _); simpl.
  split; [done|]. intros Hd. rewrite Hc2.
  destruct item as [oid u ch|u]; [|done].
  destruct (_entry_cache self2 w2 !! u) eqn:E; [done|].
  apply not_elem_of_dom in E. exfalso. apply E, Hd. rewrite Hc.
  destruct (_entry_cache self w !! u) eqn:E'.
  - apply elem_of_dom. eauto.
  - rewrite dom_insert_L. set_solver.
Qed.

(** What [flatten_and_cache] does to an entry once its children are done. *)
Lemma settles_swap_link_add entry :
  settles (let* uuid_refs := swap_to_uuids entry in
           uuid_link_cache_update (item_uuid entry) uuid_refs ;;
           maybe_add_to_cache entry).
Proof.
  destruct entry as [oid u ch|u]; [|apply settles_raise].
  set (after := λ w : World,
    let ids := item_uuid <$> fields_of (heap w) oid in
    set_cls_uuid_link_cache
      (<[u := links w u ∪ list_to_set ids]> (cls_uuid_link_cache w))
      (set_heap (mkHeap (<[oid := BareUUID <$> ids]> (refs (heap w)))
                        (next_oid (heap w))) w)).
  assert (Hrun : ∀ self w,
    (let* uuid_refs := swap_to_uuids (EntryObj oid u ch) in
     uuid_link_cache_update (item_uuid (EntryObj oid u ch)) uuid_refs ;;
     maybe_add_to_cache (EntryObj oid u ch)) self w
    = maybe_add_to_cache (EntryObj oid u ch) self (after w)) by reflexivity.
  assert (Hgr : ∀ self w, grows self w self (after w)).
  { intros self w. unfold grows, after, links, _entry_cache. simpl.
    repeat split; try done. intros u'.
    destruct (decide (u = u')) as [<-|Hne].
    - rewrite lookup_insert_eq. simpl. set_solver.
    - by rewrite lookup_insert_ne. }
  intros self w. rewrite Hrun.
  destruct (settles_maybe_add_to_cache (EntryObj oid u ch) self (after w))
    as [Hg H2].
  split; [eapply grows_trans; [apply Hgr|apply Hg]|].
  intros self2 w2. rewrite Hrun. exact (H2 self2 (after w2)).
Qed.

Lemma settles_flatten_and_cache entry : settles (flatten_and_cache entry).
Proof.
  induction entry as [u|oid u|oid u l IH] using Item_ind'.
  - apply settles_raise.
  - simpl. apply settles_bind; [apply settles_ret|].
    apply (settles_swap_link_add (EntryObj oid u None)).
  - simpl. apply settles_bind.
    + apply settles_for. eapply Forall_impl; [exact IH|].
      intros c Hc. simpl. apply settles_bind; [apply settles_maybe_add_to_cache|done].
    + apply (settles_swap_link_add (EntryObj oid u (Some l))).
Qed.

Lemma settles_flatten_entries r : settles (flatten_entries r).
Proof.
  apply settles_for, Forall_forall. intros e _. apply settles_flatten_and_cache.
Qed.

End Flatten.

(** Two objects with one identifier: the first one found is the one the
    cache answers with. *)
Example duplicate_id_first_kept :
  cache_of (flatten_entries (mkRoot [Demo.entry_a; Demo.entry_a_twin])
              Demo.new_self Demo.sample_world) !! 10%N
  = Some Demo.entry_a.
Proof. vm_compute. reflexivity. Qed.

(** C9: run twice over the same Root, the flatten engine leaves the entry
    cache after the second run equal to the entry cache after the first,
    so its membership is unchanged, and every link set after the second run
    includes the link set after the first. *)
Theorem flatten_twice r self w :
  let first := flatten_entries r self w in
  let second := flatten_entries r (self_of first) (world_of first) in
  cache_of second = cache_of first
  ∧ dom (cache_of second) = dom (cache_of first)
  ∧ ∀ u, links (world_of first) u ⊆ links (world_of second) u.
Proof.
  intros first second.
  assert (Hc : cache_of second = cache_of first).
  { destruct (settles_flatten_entries r self w) as [_ H].
    destruct (H (self_of first) (world_of first)) as [_ Hab].
    by apply Hab. }
  split; [exact Hc|]. split; [by rewrite Hc|].
  destruct (settles_flatten_entries r (self_of first) (world_of first))
    as [(_ & Hl & _) _].
  exact Hl.
Qed.

(** The engine is the loop [_load_or_initialize] runs once a Root is held. *)
Lemma load_or_initialize_held env self w r :
  _root self = Some r →
  _load_or_initialize env self w
  = (flatten_entries r ;;
     let* self := get_self in let* w := get_world in ret (_entry_cache self w))
      self w.
Proof.
  intros Hr. unfold _load_or_initialize, bind, get_self, ret. simpl.
  rewrite Hr. simpl. rewrite Hr. reflexivity.
Qed.

(** ** The backend contract *)

Lemma get_entry_run meta_id self w :
  get_entry meta_id self w
  = (match _entry_cache self w !! meta_id with
     | Some e => Ok e
     | None => Raise KeyError
     end, self, w).
Proof.
  unfold get_entry, bind, get_self, get_world, ret, raise. simpl.
  by destruct (_entry_cache self w !! meta_id).
Qed.

(** C4, as the code has it: [get_entry] on an identifier the cache does
    not have raises [KeyError], a NotFound error, and changes nothing;
    [save_entry] raises [NotImplementedError] for every entry, whether or
    not its identifier is in the cache. *)
Theorem get_entry_not_found_save_entry_unimplemented meta_id entry self w :
  _entry_cache self w !! meta_id = None →
  get_entry meta_id self w = (Raise KeyError, self, w)
  ∧ kind_of KeyError = NotFound
  ∧ save_entry entry self w = (Raise NotImplementedError, self, w)
  ∧ _Backend.save_entry entry self w = (Raise NotImplementedError, self, w)
  ∧ kind_of NotImplementedError = Unimplemented.
Proof. intros H. rewrite get_entry_run, H. done. Qed.

Lemma get_entry_not_found_save_entry_unimplemented_witness :
  _entry_cache Demo.new_self Demo.on_disk !! 10%N = None
  ∧ get_entry 10 Demo.new_self Demo.on_disk
    = (Raise KeyError, Demo.new_self, Demo.on_disk)
  ∧ save_entry Demo.entry_a Demo.new_self Demo.on_disk
    = (Raise NotImplementedError, Demo.new_self, Demo.on_disk).
Proof.
  assert (H : _entry_cache Demo.new_self Demo.on_disk !! 10%N = None)
    by reflexivity.
  split; [exact H|].
  destruct (get_entry_not_found_save_entry_unimplemented
              10 Demo.entry_a Demo.new_self Demo.on_disk H)
    as (Hg & _ & Hs & _).
  split; [exact Hg|exact Hs].
Defined.

(** C4 fails as stated: an entry whose identifier is in the cache is
    refused by [save_entry] with [NotImplementedError], which is no
    AlreadyExists error. *)
Lemma save_entry_present_not_already_exists :
  let w := set_cls_entry_cache {[ 10%N := Demo.entry_a ]} Demo.on_disk in
  is_Some (_entry_cache Demo.new_self w !! item_uuid Demo.entry_a)
  ∧ ¬ ∃ e, result_of (save_entry Demo.entry_a Demo.new_self w) = Raise e
           ∧ kind_of e = AlreadyExists.
Proof.
  split; [by eexists|].
  intros (e & He & Hk). vm_compute in He. injection He as <-. discriminate.
Qed.

(** C6, as the code has it: [clear_cache] unsets the held Root and gives
    the instance a new, empty entry cache; the link cache, the entry cache
    of the class, the heap and the files are left as they were. *)
Theorem clear_cache_resets_root_and_entry_cache self w :
  clear_cache self w = (Ok tt, mkSelf (path self) None (Some ∅), w)
  ∧ _root (self_of (clear_cache self w)) = None
  ∧ cache_of (clear_cache self w) = ∅
  ∧ cls_uuid_link_cache (world_of (clear_cache self w)) = cls_uuid_link_cache w
  ∧ cls_entry_cache (world_of (clear_cache self w)) = cls_entry_cache w.
Proof. done. Qed.

(** C6 fails as stated: after the sample Root was flattened, [clear_cache]
    leaves the link cache with the link of [entry_a] in it. *)
Lemma clear_cache_keeps_link_cache :
  let flat :=
    flatten_entries Demo.sample_root Demo.sample_self Demo.sample_world in
  let cleared := clear_cache (self_of flat) (world_of flat) in
  _root (self_of cleared) = None
  ∧ cache_of cleared = ∅
  ∧ elements (links (world_of cleared) 10) = [11%N]
  ∧ cls_uuid_link_cache (world_of cleared) ≠ ∅.
Proof.
  split; [reflexivity|]. split; [reflexivity|].
  split; [vm_compute; reflexivity|].
  intros He. apply (f_equal (λ m, elements <$> m !! 10%N)) in He.
  vm_compute in He. discriminate.
Qed.

(** ** Load, initialize and the scoped helper *)

Section Context.

Context (env : Env).

Lemma store_keeps_caches root_node self w :
  cache_of (store env root_node self w) = _entry_cache self w
  ∧ cls_uuid_link_cache (world_of (store env root_node self w))
    = cls_uuid_link_cache w
  ∧ heap (world_of (store env root_node self w)) = heap w.
Proof.
  destruct (store_cases env root_node self w) as (r & f & -> & _). done.
Qed.

Lemma initialize_keeps_caches self w :
  cache_of (initialize env self w) = _entry_cache self w.
Proof.
  unfold initialize, bind, get_self, get_world, raise. simpl.
  destruct (_ && _); [done|]. apply store_keeps_caches.
Qed.

Lemma load_keeps_caches self w :
  cache_of (load env self w) = _entry_cache self w
  ∧ self_of (load env self w) = self
  ∧ fs (world_of (load env self w)) = fs w.
Proof.
  unfold load, read_text, bind, get_self, get_world, ret, raise, modify_world.
  simpl. destruct (fs w !! path self); [|done].
  destruct (io_fails env _ _); [done|]. simpl.
  destruct (json_load env _); [|done]. simpl.
  destruct (deserialize env _ _) as [[r h]|]; done.
Qed.

Lemma load_or_initialize_ok self w db self1 w1 :
  _load_or_initialize env self w = (Ok db, self1, w1) →
  db = _entry_cache self1 w1 ∧ is_Some (_root self1).
Proof.
  unfold _load_or_initialize. intros H.
  apply bind_ok in H as (s0 & sa & wa & E0 & H). injection E0 as <- <- <-.
  apply bind_ok in H as ([] & sb & wb & _ & H).
  apply bind_ok in H as (s1 & sc & wc & E1 & H). injection E1 as <- <- <-.
  apply bind_ok in H as ([] & sd & wd & Hloop & H).
  apply bind_ok in H as (s2 & se & we & E2 & H). injection E2 as <- <- <-.
  apply bind_ok in H as (w2 & sf & wf & E3 & H). injection E3 as <- <- <-.
  injection H as <- <- <-. split; [done|].
  destruct (_root sb) as [r|] eqn:Hr; [|done].
  destruct (settles_flatten_entries r sb wb) as [(_ & _ & _ & Hroot & _) _].
  unfold flatten_entries in Hroot. rewrite Hloop in Hroot.
  unfold self_of in Hroot. simpl in Hroot.
  rewrite Hroot, Hr. eauto.
Qed.

(** When the body raises, [store()] does not run. *)
Lemma load_and_store_context_body_raises {A} (body : gmap UUID Item → M A)
    self w db self1 w1 e self2 w2 :
  _load_or_initialize env self w = (Ok db, self1, w1) →
  body db self1 w1 = (Raise e, self2, w2) →
  _load_and_store_context env body self w = (Raise e, self2, w2).
Proof.
  intros Hl Hb. unfold _load_and_store_context, bind. by rewrite Hl, Hb.
Qed.

(** C10: [get_entry] answers from the entry cache alone; it reads no file,
    loads nothing and changes nothing. On a backend whose entry cache is
    empty it raises [KeyError] for every identifier, whatever the file at
    its path holds. [store], [initialize] and [load] leave the entry cache
    as it is: only the flatten engine that [_load_or_initialize] runs adds
    to it. *)
Theorem get_entry_reads_only_the_cache self w :
  _entry_cache self w = ∅ →
  (∀ meta_id, get_entry meta_id self w = (Raise KeyError, self, w))
  ∧ (∀ root_node, cache_of (store env root_node self w) = ∅)
  ∧ cache_of (initialize env self w) = ∅
  ∧ cache_of (load env self w) = ∅.
Proof.
  intros H. split; [|split; [|split]].
  - intros meta_id. rewrite get_entry_run, H. done.
  - intros root_node. by rewrite (proj1 (store_keeps_caches root_node self w)).
  - by rewrite initialize_keeps_caches.
  - by rewrite (proj1 (load_keeps_caches self w)).
Qed.

End Context.

Lemma get_entry_reads_only_the_cache_witness :
  _entry_cache Demo.new_self Demo.on_disk = ∅
  ∧ is_Some (fs Demo.on_disk !! path Demo.new_self)
  ∧ get_entry 10 Demo.new_self Demo.on_disk
    = (Raise KeyError, Demo.new_self, Demo.on_disk).
Proof.
  assert (H : _entry_cache Demo.new_self Demo.on_disk = ∅) by reflexivity.
  split; [exact H|]. split; [vm_compute; eauto|].
  exact (proj1 (get_entry_reads_only_the_cache (Demo.env Demo.no_fault)
                  Demo.new_self Demo.on_disk H) 10%N).
Defined.

(** C2 fails on the code: a Root with three entries is passed to [store],
    and [load] then returns a Root with none. *)
Theorem store_argument_then_load_loses_entries :
  result_of ((store (Demo.env Demo.no_fault) (Some (ARoot Demo.sample_root)) ;;
              load (Demo.env Demo.no_fault)) Demo.sample_self Demo.sample_world)
  = Ok (mkRoot [])
  ∧ length (entries Demo.sample_root) = 3.
Proof. split; [vm_compute; reflexivity|reflexivity]. Qed.

(** * Further properties of the code *)

(** ** The flatten engine, step by step *)

Lemma flatten_leaf oid u self w :
  flatten_and_cache (EntryObj oid u None) self w
  = maybe_add_to_cache (EntryObj oid u None) self (after_swap_link oid u w).
Proof. reflexivity. Qed.

Lemma flatten_node oid u l self w :
  flatten_and_cache (EntryObj oid u (Some l)) self w
  = match children_loop l self w with
    | (Ok _, self1, w1) =>
        maybe_add_to_cache (EntryObj oid u (Some l)) self1
          (after_swap_link oid u w1)
    | (Raise e, self1, w1) => (Raise e, self1, w1)
    end.
Proof.
  simpl. unfold bind at 1. fold (children_loop l).
  by destruct (children_loop l self w) as [[[[]|e] self1] w1].
Qed.

Lemma children_loop_cons c l self w :
  children_loop (c :: l) self w
  = match maybe_add_to_cache c self w with
    | (Ok _, self1, w1) =>
        match flatten_and_cache c self1 w1 with
        | (Ok _, self2, w2) => children_loop l self2 w2
        | (Raise e, self2, w2) => (Raise e, self2, w2)
        end
    | (Raise e, self1, w1) => (Raise e, self1, w1)
    end.
Proof.
  unfold children_loop. simpl. unfold bind.
  destruct (maybe_add_to_cache c self w) as [[[[]|e] self1] w1]; [|done].
  by destruct (flatten_and_cache c self1 w1) as [[[[]|e] self2] w2].
Qed.

Lemma flatten_result entry self w :
  result_of (flatten_and_cache entry self w)
  = if entries_only entry then Ok tt else Raise AttributeError.
Proof.
  revert self w.
  induction entry as [u|oid u|oid u l IH] using Item_ind'; intros self w.
  - reflexivity.
  - rewrite flatten_leaf.
    by destruct (maybe_add_to_cache_run (EntryObj oid u None) self
                   (after_swap_link oid u w)) as (s' & w' & -> & _).
  - rewrite flatten_node.
    change (entries_only (EntryObj oid u (Some l))) with (forallb entries_only l).
    assert (Hl : ∀ self w,
      result_of (children_loop l self w)
      = if forallb entries_only l then Ok tt else Raise AttributeError).
    { clear self w. induction IH as [|c l Hc _ IHl]; intros self w; [done|].
      rewrite children_loop_cons. cbn [forallb].
      destruct (maybe_add_to_cache_run c self w) as (s1 & w1 & -> & _).
      specialize (Hc s1 w1).
      destruct (flatten_and_cache c s1 w1) as [[[[]|e] s2] w2];
        unfold result_of in Hc; simpl in Hc.
      - destruct (entries_only c); [|done]. apply IHl.
      - destruct (entries_only c); [done|]. exact Hc. }
    specialize (Hl self w).
    destruct (children_loop l self w) as [[[[]|e] s1] w1];
      unfold result_of in Hl; simpl in Hl.
    + destruct (forallb entries_only l); [|done].
      by destruct (maybe_add_to_cache_run (EntryObj oid u (Some l)) s1
                     (after_swap_link oid u w1)) as (s' & w' & -> & _).
    + destruct (forallb entries_only l); [done|]. exact Hl.
Qed.

(** X12: [flatten_and_cache] returns on a tree of entry objects and raises
    [AttributeError] as soon as a child is a bare identifier, whatever the
    state: a child that was replaced by its identifier is tolerated by
    [maybe_add_to_cache] and then breaks the traversal. *)
Theorem flatten_and_cache_result entry self w :
  result_of (flatten_and_cache entry self w)
  = if entries_only entry then Ok tt else Raise AttributeError.
Proof. apply flatten_result. Qed.

(** A relation between the state before and the state after that holds
    across every [maybe_add_to_cache] and every swap-and-link step holds
    across [flatten_and_cache]. *)
Section FlattenRel.

Context (R : Self → World → Self → World → Prop).
Context (R_refl : ∀ s w, R s w s w).
Context (R_trans : ∀ s1 w1 s2 w2 s3 w3,
           R s1 w1 s2 w2 → R s2 w2 s3 w3 → R s1 w1 s3 w3).
Context (R_add : ∀ item s w,
           R s w (self_of (maybe_add_to_cache item s w))
                 (world_of (maybe_add_to_cache item s w))).
Context (R_swap : ∀ oid u s w, R s w s (after_swap_link oid u w)).

Lemma children_loop_rel l :
  Forall (λ c, ∀ s w, R s w (self_of (flatten_and_cache c s w))
                            (world_of (flatten_and_cache c s w))) l →
  ∀ s w, R s w (self_of (children_loop l s w)) (world_of (children_loop l s w)).
Proof.
  induction 1 as [|c l Hc _ IHl]; intros s w; [apply R_refl|].
  rewrite children_loop_cons.
  pose proof (R_add c s w) as Ha.
  destruct (maybe_add_to_cache c s w) as [[[[]|e] s1] w1]; [|exact Ha].
  pose proof (Hc s1 w1) as Hf.
  destruct (flatten_and_cache c s1 w1) as [[[[]|e] s2] w2].
  - eapply R_trans; [exact Ha|]. eapply R_trans; [exact Hf|]. apply IHl.
  - eapply R_trans; [exact Ha|exact Hf].
Qed.

Lemma flatten_and_cache_rel entry s w :
  R s w (self_of (flatten_and_cache entry s w))
        (world_of (flatten_and_cache entry s w)).
Proof.
  revert s w.
  induction entry as [u|oid u|oid u l IH] using Item_ind'; intros s w.
  - apply R_refl.
  - rewrite flatten_leaf. eapply R_trans; [apply (R_swap oid u)|apply R_add].
  - rewrite flatten_node.
    pose proof (children_loop_rel l IH s w) as Hl.
    destruct (children_loop l s w) as [[[[]|e] s1] w1]; [|exact Hl].
    eapply R_trans; [exact Hl|].
    eapply R_trans; [apply (R_swap oid u)|apply R_add].
Qed.

Lemma flatten_entries_rel r s w :
  R s w (self_of (flatten_entries r s w)) (world_of (flatten_entries r s w)).
Proof.
  unfold flatten_entries. revert s w.
  induction (entries r) as [|e l IHl]; intros s w; [apply R_refl|].
  simpl. unfold bind.
  pose proof (flatten_and_cache_rel e s w) as He.
  destruct (flatten_and_cache e s w) as [[[[]|x] s1] w1]; [|exact He].
  eapply R_trans; [exact He|apply IHl].
Qed.

End FlattenRel.

#[local] Set Warnings "-clear-no-such-hyp".

Lemma maybe_add_to_cache_dom item self w :
  dom (cache_of (maybe_add_to_cache item self w))
  = match item with
    | EntryObj _ u _ => dom (_entry_cache self w) ∪ {[ u ]}
    | BareUUID _ => dom (_entry_cache self w)
    end
  ∧ cls_uuid_link_cache (world_of (maybe_add_to_cache item self w))
    = cls_uuid_link_cache w
  ∧ heap (world_of (maybe_add_to_cache item self w)) = heap w.
Proof.
  unfold cache_of, self_of, world_of.
  destruct (maybe_add_to_cache_run item self w)
    as (s' & w' & -> & Hc & Hl & Hh & _). simpl.
  split; [|done]. rewrite Hc. destruct item as [oid u ch|u]; [|done].
  destruct (_entry_cache self w !! u) eqn:E.
  - apply elem_of_dom_2 in E. set_solver.
  - rewrite dom_insert_L. set_solver.
Qed.

Lemma entries_only_uuid entry :
  entries_only entry = true → item_uuid entry ∈ tree_uuids entry.
Proof. destruct entry as [oid u [l|]|u]; simpl; [set_solver..|done]. Qed.

Lemma flatten_keys entry self w :
  entries_only entry = true →
  dom (cache_of (flatten_and_cache entry self w))
  = dom (_entry_cache self w) ∪ tree_uuids entry
  ∧ dom (cls_uuid_link_cache (world_of (flatten_and_cache entry self w)))
    = dom (cls_uuid_link_cache w) ∪ tree_uuids entry.
Proof.
  revert self w.
  induction entry as [u|oid u|oid u l IH] using Item_ind'; intros self w Hok.
  - done.
  - rewrite flatten_leaf.
    destruct (maybe_add_to_cache_dom (EntryObj oid u None) self
                (after_swap_link oid u w)) as (-> & -> & _).
    split; [done|]. simpl. rewrite dom_insert_L. set_solver.
  - rewrite flatten_node.
    change (entries_only (EntryObj oid u (Some l))) with (forallb entries_only l)
      in Hok.
    assert (Hl : ∀ self w,
      result_of (children_loop l self w) = Ok tt
      ∧ dom (cache_of (children_loop l self w))
        = dom (_entry_cache self w) ∪ ⋃ (map tree_uuids l)
      ∧ dom (cls_uuid_link_cache (world_of (children_loop l self w)))
        = dom (cls_uuid_link_cache w) ∪ ⋃ (map tree_uuids l)).
    { clear self w. induction IH as [|c l Hc _ IHl]; intros self w.
      { simpl. unfold cache_of. simpl. split; [done|]. set_solver. }
      cbn [forallb] in Hok. apply andb_true_iff in Hok as [Hc1 Hl1].
      rewrite children_loop_cons.
      destruct (maybe_add_to_cache_dom c self w) as (Hd & Hk & _).
      destruct (maybe_add_to_cache_run c self w) as (s1 & w1 & E & _).
      rewrite E in Hd, Hk |- *.
      destruct (Hc s1 w1 Hc1) as [Hd2 Hk2].
      pose proof (flatten_result c s1 w1) as Hr. rewrite Hc1 in Hr.
      destruct (flatten_and_cache c s1 w1) as [[[[]|e] s2] w2];
        unfold result_of in Hr; simpl in Hr; [|done].
      destruct (IHl Hl1 s2 w2) as (Hr3 & Hd3 & Hk3).
      split; [done|].
      unfold cache_of, self_of, world_of in *. simpl in Hd, Hk, Hd2, Hk2.
      rewrite Hd3, Hk3, Hd2, Hk2, Hd, Hk.
      pose proof (entries_only_uuid c Hc1) as Hin.
      destruct c as [oc uc chc|uc]; [|done]. simpl in Hin |- *.
      set_solver. }
    destruct (Hl self w) as (Hr & Hd & Hk).
    destruct (children_loop l self w) as [[[[]|e] s1] w1];
      unfold result_of in Hr; simpl in Hr; [|done].
    destruct (maybe_add_to_cache_dom (EntryObj oid u (Some l)) s1
                (after_swap_link oid u w1)) as (-> & -> & _).
    change (_entry_cache s1 (after_swap_link oid u w1)) with (_entry_cache s1 w1).
    unfold cache_of, self_of, world_of in *. simpl in Hd, Hk.
    rewrite Hd. simpl. rewrite dom_insert_L, Hk. set_solver.
Qed.

(** X13: flattening a tree of entry objects adds to the entry cache, and to
    the link cache, the identifiers of the tree and no other: afterwards
    both are keyed by what they had plus exactly those identifiers. *)
Theorem flatten_and_cache_keys entry self w :
  entries_only entry = true →
  dom (cache_of (flatten_and_cache entry self w))
  = dom (_entry_cache self w) ∪ tree_uuids entry
  ∧ dom (cls_uuid_link_cache (world_of (flatten_and_cache entry self w)))
    = dom (cls_uuid_link_cache w) ∪ tree_uuids entry.
Proof. apply flatten_keys. Qed.

Lemma cache_keyed_empty : cache_keyed ∅.
Proof. intros u e H. by rewrite lookup_empty in H. Qed.

Lemma maybe_add_to_cache_keyed item self w :
  cache_keyed (_entry_cache self w) →
  cache_keyed (cache_of (maybe_add_to_cache item self w)).
Proof.
  intros Hk. unfold cache_of, self_of, world_of.
  destruct (maybe_add_to_cache_run item self w) as (s' & w' & -> & Hc & _).
  simpl. rewrite Hc. destruct item as [oid u ch|u]; [|done].
  destruct (_entry_cache self w !! u) eqn:E; [done|].
  intros u' e. destruct (decide (u = u')) as [<-|Hne].
  - rewrite lookup_insert_eq. intros [= <-]. eauto.
  - rewrite lookup_insert_ne by done. apply Hk.
Qed.

(** X14: the flatten engine keeps the entry cache well keyed: when every
    cached item is an entry object filed under its own identifier, that is
    still so after a Root was flattened, whether or not the run raised. *)
Theorem flatten_entries_keeps_cache_keyed r self w :
  cache_keyed (_entry_cache self w) →
  cache_keyed (cache_of (flatten_entries r self w)).
Proof.
  apply (flatten_entries_rel
    (λ s w s' w', cache_keyed (_entry_cache s w) → cache_keyed (_entry_cache s' w'))).
  - auto.
  - auto.
  - intros item s0 w0. apply maybe_add_to_cache_keyed.
  - auto.
Qed.

Lemma flatten_and_cache_keeps_cache_keyed entry self w :
  cache_keyed (_entry_cache self w) →
  cache_keyed (cache_of (flatten_and_cache entry self w)).
Proof.
  apply (flatten_and_cache_rel
    (λ s w s' w', cache_keyed (_entry_cache s w) → cache_keyed (_entry_cache s' w'))).
  - auto.
  - auto.
  - intros item s0 w0. apply maybe_add_to_cache_keyed.
  - auto.
Qed.

Lemma item_uuid_bare (l : list N) : item_uuid <$> (BareUUID <$> l) = l.
Proof.
  induction l as [|x l IH]; [done|]. rewrite !fmap_cons. f_equal. exact IH.
Qed.

Lemma field_ids_after_swap_link oid u w oid' :
  field_ids (heap (after_swap_link oid u w)) oid' = field_ids (heap w) oid'.
Proof.
  unfold field_ids, fields_of, after_swap_link. simpl.
  destruct (decide (oid = oid')) as [<-|Hne].
  - rewrite lookup_insert_eq. simpl. f_equal. apply item_uuid_bare.
  - by rewrite lookup_insert_ne.
Qed.

(** The flatten engine rewrites referring fields but keeps, for every
    object, the identifiers its fields hold or point to. *)
Lemma flatten_and_cache_field_ids entry self w oid :
  field_ids (heap (world_of (flatten_and_cache entry self w))) oid
  = field_ids (heap w) oid.
Proof.
  apply (flatten_and_cache_rel
    (λ s w s' w', field_ids (heap w') oid = field_ids (heap w) oid)).
  - done.
  - intros; congruence.
  - intros item s0 w0.
    by destruct (maybe_add_to_cache_dom item s0 w0) as (_ & _ & ->).
  - intros. apply field_ids_after_swap_link.
Qed.

Lemma children_loop_field_ids l self w oid :
  field_ids (heap (world_of (children_loop l self w))) oid
  = field_ids (heap w) oid.
Proof.
  apply (children_loop_rel
    (λ s w s' w', field_ids (heap w') oid = field_ids (heap w) oid)).
  - done.
  - intros; congruence.
  - intros item s0 w0.
    by destruct (maybe_add_to_cache_dom item s0 w0) as (_ & _ & ->).
  - apply Forall_forall. intros c _ s0 w0. apply flatten_and_cache_field_ids.
Qed.

Lemma grows_after_swap_link oid u self w :
  grows self w self (after_swap_link oid u w).
Proof.
  unfold grows, after_swap_link, links, _entry_cache. simpl.
  repeat split; try done. intros u'.
  destruct (decide (u = u')) as [<-|Hne].
  - rewrite lookup_insert_eq. simpl. set_solver.
  - by rewrite lookup_insert_ne.
Qed.

Lemma maybe_add_to_cache_grows item self w :
  grows self w (self_of (maybe_add_to_cache item self w))
               (world_of (maybe_add_to_cache item self w)).
Proof.
  by destruct (maybe_add_to_cache_run item self w) as (s' & w' & -> & _ & _ & _ & ?).
Qed.

Lemma children_loop_grows l self w :
  grows self w (self_of (children_loop l self w)) (world_of (children_loop l self w)).
Proof.
  apply (children_loop_rel grows grows_refl grows_trans maybe_add_to_cache_grows).
  apply Forall_forall. intros c _ s0 w0.
  apply (flatten_and_cache_rel grows grows_refl grows_trans
           maybe_add_to_cache_grows grows_after_swap_link).
Qed.

(** X15: after an entry of a tree of entry objects was flattened, the link
    set of its identifier includes every identifier its referring fields
    held or pointed to before the run, and everything the link set had. *)
Theorem flatten_and_cache_links oid u ch self w :
  entries_only (EntryObj oid u ch) = true →
  field_ids (heap w) oid ∪ links w u
  ⊆ links (world_of (flatten_and_cache (EntryObj oid u ch) self w)) u.
Proof.
  intros Hok.
  assert (Hstep : ∀ entry s1 w1,
    field_ids (heap w1) oid ∪ links w1 u
    ⊆ links (world_of (maybe_add_to_cache entry s1 (after_swap_link oid u w1))) u).
  { intros entry s1 w1.
    destruct (maybe_add_to_cache_dom entry s1 (after_swap_link oid u w1))
      as (_ & Hl & _).
    unfold links at 2. rewrite Hl. unfold after_swap_link. simpl.
    rewrite lookup_insert_eq. simpl. unfold field_ids. set_solver. }
  destruct ch as [l|].
  - rewrite flatten_node.
    pose proof (flatten_result (EntryObj oid u (Some l)) self w) as Hr.
    rewrite Hok, flatten_node in Hr.
    pose proof (children_loop_field_ids l self w oid) as Hf.
    destruct (children_loop_grows l self w) as (_ & Hg & _).
    destruct (children_loop l self w) as [[[[]|e] s1] w1]; [|discriminate Hr].
    unfold world_of, self_of in Hf, Hg. cbn [fst snd] in Hf, Hg.
    rewrite <- Hf. etrans; [|apply Hstep]. specialize (Hg u). set_solver.
  - rewrite flatten_leaf. apply Hstep.
Qed.

(** ** Store, load and initialize *)

Section MoreStore.

Context (env : Env).

(** X1: [_temp_path] always returns, draws one [uuid4], changes nothing
    else, and the name it returns is never the path of the database. *)
Theorem temp_path_is_not_the_target self w :
  ∃ p,
    _temp_path env self w = (Ok p, self, set_draws (S (draws w)) w)
    ∧ p = temp_name (path self) (uuid4_str env (draws w))
    ∧ p ≠ path self.
Proof.
  eexists. split; [reflexivity|]. split; [done|]. apply temp_name_ne_path.
Qed.

(** X3: a [store] that returns has replaced the target and nothing else:
    the target holds the serialized text, with the permission bits it had
    when it existed; the temporary name is free again; every other file is
    as it was; the instance, the heap and both caches are untouched. *)
Theorem store_success_effect root_node self w self' w' :
  store env root_node self w = (Ok tt, self', w') →
  let temp_path := temp_name (path self) (uuid4_str env (draws w)) in
  self' = self
  ∧ (∃ data,
       serialize env (heap w)
         match root_node with
         | None => _root self
         | Some _ => Some (mkRoot [])
         end = Some data
       ∧ fs w' !! path self
         = Some (mkFile (json_dump env data)
                        (stored_mode env (fs w) (path self) temp_path)))
  ∧ fs w' !! temp_path = None
  ∧ (∀ p, p ≠ path self → p ≠ temp_path → fs w' !! p = fs w !! p)
  ∧ match fs w !! path self with
    | Some g => mode <$> fs w' !! path self = Some (mode g)
    | None => is_Some (fs w' !! path self)
    end
  ∧ w' = set_fs (fs w') (set_draws (S (draws w)) w).
Proof.
  intros H temp_path.
  pose proof (temp_name_ne_path (path self) (uuid4_str env (draws w))) as Hne.
  destruct (store_cases env root_node self w) as (r & f & Hs & Hc).
  rewrite H in Hs. injection Hs as Hr Hself Hw. subst r self' w'.
  fold temp_path in Hc, Hne. simpl.
  destruct Hc as [(_ & ? & _)|[(_ & ? & _)|(data & Hd & _ & ->)]]; [done..|].
  split; [done|]. split; [|split; [|split; [|split]]].
  - exists data. split; [done|]. apply lookup_insert_eq.
  - rewrite lookup_insert_ne by done. apply lookup_delete_eq.
  - intros p Hp Ht. rewrite lookup_insert_ne by done. by apply lookup_delete_ne.
  - rewrite lookup_insert_eq. unfold stored_mode.
    destruct (fs w !! path self); simpl; eauto.
  - done.
Qed.

Lemma initialize_returns self w self' w' :
  initialize env self w = (Ok tt, self', w') →
  (fs w !! path self = None
   ∨ ∃ f, fs w !! path self = Some f ∧ contents f = "")
  ∧ ∃ data,
      serialize env (heap w) (Some (mkRoot [])) = Some data
      ∧ contents <$> fs w' !! path self = Some (json_dump env data)
      ∧ self' = self.
Proof.
  unfold initialize, bind, get_self, get_world, raise. simpl.
  unfold exists_, st_size.
  destruct (fs w !! path self) as [f|] eqn:Hf; simpl.
  - case_bool_decide as Hsz; simpl; [done|].
    intros H. split; [right; exists f; split; [done|]|].
    + destruct (contents f); [done|simpl in Hsz; lia].
    + by apply (store_returns env (Some AEmptyDict)).
  - intros H. split; [by left|].
    by apply (store_returns env (Some AEmptyDict)).
Qed.

(** X4: [initialize] returns only when the path held no file or an empty
    one, and it leaves there the text of an empty Root. *)
Theorem initialize_success self w self' w' :
  initialize env self w = (Ok tt, self', w') →
  (fs w !! path self = None
   ∨ ∃ f, fs w !! path self = Some f ∧ contents f = "")
  ∧ ∃ data,
      serialize env (heap w) (Some (mkRoot [])) = Some data
      ∧ contents <$> fs w' !! path self = Some (json_dump env data)
      ∧ self' = self.
Proof. apply initialize_returns. Qed.

Lemma load_run self w :
  load env self w
  = match fs w !! path self with
    | None => (Raise FileNotFoundError, self, w)
    | Some f =>
        if io_fails env (OpenR (path self)) (fs w) then (Raise OSError, self, w)
        else
          match json_load env (contents f) with
          | None => (Raise JSONDecodeError, self, w)
          | Some data =>
              match deserialize env (heap w) data with
              | None => (Raise ValidationError, self, w)
              | Some (r, h) => (Ok r, self, set_heap h w)
              end
          end
    end.
Proof.
  unfold load, read_text, bind, get_self, get_world, ret, raise, modify_world.
  simpl. destruct (fs w !! path self); [|done].
  destruct (io_fails env _ _); [done|]. simpl.
  destruct (json_load env _); [|done]. simpl.
  destruct (deserialize env _ _) as [[r h]|]; done.
Qed.

Lemma load_changes_heap_only self w :
  self_of (load env self w) = self
  ∧ match result_of (load env self w) with
    | Ok _ => ∃ h, world_of (load env self w) = set_heap h w
    | Raise _ => world_of (load env self w) = w
    end.
Proof.
  rewrite load_run.
  destruct (fs w !! path self); [|done].
  destruct (io_fails env _ _); [done|].
  destruct (json_load env _); [|done].
  destruct (deserialize env _ _) as [[r h]|]; [|done].
  split; [done|]. by exists h.
Qed.

(** X5: [load] does not hold the Root it returns and touches neither the
    files nor the caches: the instance is as before, and of the world only
    the heap can differ, and only when [load] returns. *)
Theorem load_frame self w :
  self_of (load env self w) = self
  ∧ match result_of (load env self w) with
    | Ok _ => ∃ h, world_of (load env self w) = set_heap h w
    | Raise _ => world_of (load env self w) = w
    end.
Proof. apply load_changes_heap_only. Qed.

(** X6: [load] after a returning [store()] gives back the Root that
    [deserialize] builds from the serialized held Root, provided the file
    can be opened and [json.load] reads back what [json.dump] wrote. *)
Theorem load_after_store self w self' w' data :
  store env None self w = (Ok tt, self', w') →
  serialize env (heap w) (_root self) = Some data →
  json_load env (json_dump env data) = Some data →
  io_fails env (OpenR (path self)) (fs w') = false →
  load env self' w'
  = match deserialize env (heap w) data with
    | Some (r, h) => (Ok r, self, set_heap h w')
    | None => (Raise ValidationError, self, w')
    end.
Proof.
  intros Hs Hd Hj Hio.
  destruct (store_returns env None _ _ _ _ Hs) as (data' & Hd' & Hc & ->).
  rewrite Hd in Hd'. injection Hd' as <-.
  assert (Hh : heap w' = heap w).
  { pose proof (store_keeps_caches env None self w) as (_ & _ & Hh).
    by rewrite Hs in Hh. }
  rewrite load_run.
  destruct (fs w' !! path self) as [f|]; [|done].
  injection Hc as Hc. rewrite Hio, Hc, Hj, Hh. done.
Qed.

Lemma flatten_entries_grows r self w :
  grows self w (self_of (flatten_entries r self w))
               (world_of (flatten_entries r self w)).
Proof. by destruct (settles_flatten_entries r self w) as [? _]. Qed.

Lemma load_or_initialize_held_grows self w r :
  _root self = Some r →
  grows self w (self_of (_load_or_initialize env self w))
               (world_of (_load_or_initialize env self w))
  ∧ ok_of (_load_or_initialize env self w) = forallb entries_only (entries r).
Proof.
  intros Hr. rewrite (load_or_initialize_held env self w r Hr).
  pose proof (flatten_entries_grows r self w) as Hg.
  assert (Hok : ok_of (flatten_entries r self w) = forallb entries_only (entries r)).
  { unfold flatten_entries. clear Hg Hr. revert self w.
    induction (entries r) as [|e l IHl]; intros self w; [done|].
    simpl. unfold bind.
    pose proof (flatten_result e self w) as He.
    destruct (flatten_and_cache e self w) as [[[[]|x] s1] w1];
      unfold result_of in He; simpl in He.
    - destruct (entries_only e); [|done]. apply IHl.
    - by destruct (entries_only e). }
  unfold bind, get_self, get_world, ret.
  destruct (flatten_entries r self w) as [[[[]|e] s1] w1]; done.
Qed.

(** X7: once a Root is held, [_load_or_initialize] reads and writes no
    file and draws no name: it only runs the flatten engine, so the held
    Root, the path and the files stay and the caches only grow; it returns
    exactly when the Root is a tree of entry objects. *)
Theorem load_or_initialize_held_no_disk self w r :
  _root self = Some r →
  grows self w (self_of (_load_or_initialize env self w))
               (world_of (_load_or_initialize env self w))
  ∧ ok_of (_load_or_initialize env self w) = forallb entries_only (entries r).
Proof. apply load_or_initialize_held_grows. Qed.

Lemma load_or_initialize_unheld self w :
  _root self = None →
  _load_or_initialize env self w
  = (try_except
       (let* r := load env in modify_self (set_root (Some r)))
       (λ e, bool_decide (e = FileNotFoundError))
       (λ _, initialize env ;;
             let* r := load env in modify_self (set_root (Some r))) ;;
     let* self := get_self in
     match _root self with
     | None => raise AttributeError
     | Some r => for_ flatten_and_cache (entries r)
     end ;;
     let* self := get_self in
     let* w := get_world in
     ret (_entry_cache self w)) self w.
Proof.
  intros Hr. unfold _load_or_initialize. unfold bind at 1, get_self at 1.
  rewrite Hr. reflexivity.
Qed.

(** X8: a database that exists but cannot be read is never overwritten:
    when no Root is held and [load] raises on an existing file,
    [_load_or_initialize] raises the same exception and changes nothing. *)
Theorem load_or_initialize_keeps_unreadable self w f e self1 w1 :
  _root self = None →
  fs w !! path self = Some f →
  load env self w = (Raise e, self1, w1) →
  _load_or_initialize env self w = (Raise e, self, w).
Proof.
  intros Hr Hf Hl. rewrite (load_or_initialize_unheld self w Hr).
  rewrite load_run, Hf in Hl.
  assert (He : e ≠ FileNotFoundError ∧ self1 = self ∧ w1 = w).
  { destruct (io_fails env _ _); [by injection Hl as <- <- <-|].
    destruct (json_load env _); [|by injection Hl as <- <- <-].
    destruct (deserialize env _ _) as [[r h]|]; [done|].
    by injection Hl as <- <- <-. }
  destruct He as (He & -> & ->).
  unfold bind at 1, try_except, bind at 1.
  rewrite load_run, Hf.
  destruct (io_fails env _ _).
  { injection Hl as <-. done. }
  destruct (json_load env _).
  2:{ injection Hl as <-. done. }
  destruct (deserialize env _ _) as [[r h]|]; [done|].
  injection Hl as <-. done.
Qed.

End MoreStore.

Section MoreContext.

Context (env : Env).

Lemma try_except_ok {A} (body : M A) handles handler self w a self' w' :
  try_except body handles handler self w = (Ok a, self', w') →
  body self w = (Ok a, self', w')
  ∨ ∃ e self1 w1,
      body self w = (Raise e, self1, w1) ∧ handles e = true
      ∧ handler e self1 w1 = (Ok a, self', w').
Proof.
  unfold try_except. destruct (body self w) as [[[a0|e] self1] w1].
  - intros H. by left.
  - destruct (handles e) eqn:He; [|done]. intros H. right. by exists e, self1, w1.
Qed.

(** X9: on first access with no file at the path, [_load_or_initialize]
    creates the database: when it returns, the path holds the text of an
    empty Root and a Root is held. *)
Theorem load_or_initialize_creates_database self w db self' w' :
  _root self = None →
  fs w !! path self = None →
  _load_or_initialize env self w = (Ok db, self', w') →
  ∃ data,
    serialize env (heap w) (Some (mkRoot [])) = Some data
    ∧ contents <$> fs w' !! path self' = Some (json_dump env data)
    ∧ is_Some (_root self')
    ∧ path self' = path self.
Proof.
  intros Hr Hf H.
  destruct (load_or_initialize_ok env _ _ _ _ _ H) as [_ Hroot].
  rewrite (load_or_initialize_unheld env self w Hr) in H.
  apply bind_ok in H as ([] & sa & wa & Htry & H).
  apply bind_ok in H as (s1 & sb & wb & E1 & H). injection E1 as <- <- <-.
  apply bind_ok in H as ([] & sc & wc & Hloop & H).
  apply bind_ok in H as (s2 & sd & wd & E2 & H). injection E2 as <- <- <-.
  apply bind_ok in H as (w2 & se & we & E3 & H). injection E3 as <- <- <-.
  injection H as _ <- <-.
  (* the first load finds no file, so the handler ran *)
  apply try_except_ok in Htry as [Hb|(e & s3 & w3 & Hb & _ & Hh)].
  { apply bind_ok in Hb as (r0 & s3 & w3 & Hl & _).
    rewrite load_run, Hf in Hl. done. }
  assert (Hst : s3 = self ∧ w3 = w).
  { apply bind_raise in Hb as [Hl|(r0 & s4 & w4 & _ & Hm)]; [|done].
    rewrite load_run, Hf in Hl. by injection Hl as _ <- <-. }
  destruct Hst as [-> ->].
  apply bind_ok in Hh as ([] & s4 & w4 & Hini & Hh).
  apply bind_ok in Hh as (r1 & s5 & w5 & Hl & Hset).
  injection Hset as <- <-.
  destruct (initialize_returns env _ _ _ _ Hini) as (_ & data & Hd & Hc & ->).
  pose proof (load_changes_heap_only env self w4) as [Hs5 Hw5].
  rewrite Hl in Hs5, Hw5. unfold self_of, result_of, world_of in Hs5, Hw5.
  simpl in Hs5, Hw5. destruct Hw5 as [h ->]. subst s5.
  (* the flatten loop keeps path and files *)
  simpl in Hloop.
  pose proof (flatten_entries_grows r1 (set_root (Some r1) self) (set_heap h w4))
    as (_ & _ & Hp & _ & Hfs & _).
  unfold flatten_entries in Hp, Hfs. rewrite Hloop in Hp, Hfs.
  unfold self_of, world_of in Hp, Hfs. simpl in Hp, Hfs.
  exists data. rewrite Hp, Hfs. done.
Qed.

(** X10: a new backend holds no Root and has no entry cache of its own,
    whatever the arguments, so it starts with the entries the class cache
    already has; without [initialize] the constructor touches nothing. *)
Theorem init_new_backend p initialize_ cfg_path w :
  let resolved :=
    match cfg_path with
    | Some cfg => build_abs_path env (Posixpath.dirname cfg) p
    | None => p
    end in
  self_of (__init__ env p initialize_ cfg_path w) = mkSelf resolved None None
  ∧ cache_of (__init__ env p initialize_ cfg_path w) = cls_entry_cache w
  ∧ if initialize_ then True
    else __init__ env p initialize_ cfg_path w
         = (Ok tt, mkSelf resolved None None, w).
Proof.
  intros resolved. unfold __init__. fold resolved.
  destruct initialize_; [|done].
  pose proof (initialize_keeps_caches env (mkSelf resolved None None) w) as Hc.
  split; [|by split].
  unfold initialize, bind, get_self, get_world, raise. simpl.
  destruct (_ && _); [done|].
  by destruct (store_cases env (Some AEmptyDict) (mkSelf resolved None None) w)
    as (r & f & -> & _).
Qed.

(** X11: the [root] property returns the Root the backend holds afterwards;
    a Root that was already held is the one returned, without a reload. *)
Theorem root_returns_held_root self w x self' w' :
  root env self w = (Ok x, self', w') →
  x = _root self'
  ∧ is_Some x
  ∧ match _root self with
    | Some r => x = Some r
    | None => True
    end.
Proof.
  unfold root, _load_and_store_context. intros H.
  apply bind_ok in H as (db & self1 & w1 & Hload & H).
  apply bind_ok in H as (a & self2 & w2 & Hbody & H).
  apply bind_ok in H as ([] & self3 & w3 & Hstore & H).
  injection H as <- <- <-.
  apply bind_ok in Hbody as (s & sa & wa & E & Hret).
  injection E as <- <- <-. injection Hret as <- <- <-.
  destruct (load_or_initialize_ok env _ _ _ _ _ Hload) as [_ Hroot].
  destruct (store_returns env None _ _ _ _ Hstore) as (_ & _ & _ & ->).
  split; [done|]. split; [done|].
  destruct (_root self) as [r|] eqn:Hr; [|done].
  destruct (load_or_initialize_held_grows env self w r Hr)
    as [(_ & _ & _ & Hk & _) _].
  rewrite Hload in Hk. unfold self_of in Hk. simpl in Hk. congruence.
Qed.

End MoreContext.

(** ** Looking entries up, and who sees them *)

(** X16: after an entry of a tree of entry objects was flattened into a well
    keyed cache, [get_entry] on its identifier returns an entry object with
    that identifier and changes nothing. *)
Theorem get_entry_after_flatten oid u ch self w :
  entries_only (EntryObj oid u ch) = true →
  cache_keyed (_entry_cache self w) →
  ∃ oid' ch',
    get_entry u (self_of (flatten_and_cache (EntryObj oid u ch) self w))
                (world_of (flatten_and_cache (EntryObj oid u ch) self w))
    = (Ok (EntryObj oid' u ch'),
       self_of (flatten_and_cache (EntryObj oid u ch) self w),
       world_of (flatten_and_cache (EntryObj oid u ch) self w)).
Proof.
  intros Hok Hk. rewrite get_entry_run.
  destruct (flatten_keys (EntryObj oid u ch) self w Hok) as [Hd _].
  pose proof (flatten_and_cache_keeps_cache_keyed (EntryObj oid u ch) self w Hk)
    as Hk'.
  pose proof (entries_only_uuid _ Hok) as Hin. simpl in Hin.
  assert (Hu : u ∈ dom (cache_of (flatten_and_cache (EntryObj oid u ch) self w)))
    by (rewrite Hd; set_solver).
  apply elem_of_dom in Hu as [e He]. unfold cache_of in He, Hk'. rewrite He.
  destruct (Hk' u e He) as (oid' & ch' & ->). eauto.
Qed.

(** X17: an entry the cache has before a Root is flattened is the entry
    [get_entry] returns afterwards: flattening never replaces what a
    lookup answers. *)
Theorem get_entry_stable_under_flatten r u e self w :
  _entry_cache self w !! u = Some e →
  get_entry u (self_of (flatten_entries r self w))
              (world_of (flatten_entries r self w))
  = (Ok e, self_of (flatten_entries r self w),
     world_of (flatten_entries r self w)).
Proof.
  intros He. rewrite get_entry_run.
  destruct (flatten_entries_grows r self w) as (Hsub & _).
  by rewrite (lookup_weaken _ _ _ _ He Hsub).
Qed.

Lemma maybe_add_to_cache_place item self w :
  (own_entry_cache self = None →
   own_entry_cache (self_of (maybe_add_to_cache item self w)) = None)
  ∧ (is_Some (own_entry_cache self) →
     is_Some (own_entry_cache (self_of (maybe_add_to_cache item self w)))
     ∧ cls_entry_cache (world_of (maybe_add_to_cache item self w))
       = cls_entry_cache w).
Proof.
  destruct item as [oid u ch|u]; [|done].
  unfold maybe_add_to_cache, bind, get_self, get_world, ret. simpl.
  destruct (decide _); [done|].
  unfold entry_cache_setitem.
  destruct (own_entry_cache self) as [c|] eqn:Ho; unfold self_of, world_of; simpl.
  - split; [done|]. intros _. split; [eauto|done].
  - split; [done|]. intros [? ?]; done.
Qed.

(** X18: the entry cache is shared: what one backend flattens is what every
    other backend without a cache of its own finds, as long as the first
    has not called [clear_cache]. *)
Theorem flatten_entries_shared r self w other :
  own_entry_cache self = None →
  own_entry_cache other = None →
  _entry_cache other (world_of (flatten_entries r self w))
  = cache_of (flatten_entries r self w).
Proof.
  intros Hs Ho.
  assert (Hn : own_entry_cache (self_of (flatten_entries r self w)) = None).
  { revert Hs.
    apply (flatten_entries_rel
      (λ s w s' w', own_entry_cache s = None → own_entry_cache s' = None));
      [auto|auto| |auto].
    intros item s0 w0. apply maybe_add_to_cache_place. }
  unfold cache_of, _entry_cache. by rewrite Ho, Hn.
Qed.

(** X19: a backend that has called [clear_cache] caches for itself: what it
    flattens goes to its own entry cache, and the cache the other backends
    share stays as it was. *)
Theorem flatten_entries_private r self w :
  is_Some (own_entry_cache self) →
  is_Some (own_entry_cache (self_of (flatten_entries r self w)))
  ∧ cls_entry_cache (world_of (flatten_entries r self w)) = cls_entry_cache w.
Proof.
  apply (flatten_entries_rel
    (λ s w s' w', is_Some (own_entry_cache s) →
                  is_Some (own_entry_cache s') ∧ cls_entry_cache w' = cls_entry_cache w)).
  - auto.
  - intros s1 w1 s2 w2 s3 w3 H12 H23 H1.
    destruct (H12 H1) as [H2 E2]. destruct (H23 H2) as [H3 E3].
    split; [done|congruence].
  - intros item s0 w0. apply maybe_add_to_cache_place.
  - auto.
Qed.

(** ** The temporary file lives next to the target *)

Module PosixpathMore.

Import Posixpath PosixpathFacts.

Lemma has_sep_app a b : has_sep (a +:+ b) = has_sep a || has_sep b.
Proof.
  induction a as [|c a IH]; [done|].
  rewrite app_cons. simpl. by rewrite IH, orb_assoc.
Qed.

Lemma has_sep_basename p : has_sep (rsplit p).2 = false.
Proof.
  induction p as [|c r IH]; [done|]. simpl.
  destruct (has_sep r) eqn:Hr; simpl; [done|].
  destruct (is_sep c) eqn:Hc; simpl; [done|]. by rewrite Hc, Hr.
Qed.

Lemma is_sep_sep : is_sep sep = true.
Proof. reflexivity. Qed.

(** Splitting [a/f] at the last separator when [f] has none. *)
Lemma rsplit_snoc_sep a f :
  has_sep f = false → rsplit (a +:+ String sep f) = (a +:+ String sep "", f).
Proof.
  intros Hf. induction a as [|c a IH].
  - rewrite !app_nil_l. simpl. by rewrite Hf.
  - rewrite !app_cons. simpl.
    rewrite has_sep_app. simpl. rewrite orb_true_r. by rewrite IH.
Qed.

Lemma last_char_sep_snoc d :
  last_char d = Some sep → ∃ a, d = a +:+ String sep "".
Proof.
  induction d as [|c d IH]; [done|]. simpl.
  destruct d as [|c' d'].
  - intros [= ->]. by exists "".
  - intros H. destruct (IH H) as [a Ha]. exists (String c a).
    by rewrite app_cons, <- Ha.
Qed.

Lemma all_sep_last s : all_sep s = true → s = "" ∨ last_char s = Some sep.
Proof.
  induction s as [|c s IH]; [by left|]. simpl.
  intros [Hc Hs]%andb_true_iff. right.
  unfold is_sep in Hc. apply bool_decide_eq_true in Hc as ->.
  destruct (IH Hs) as [->|Hl]; [done|]. by destruct s.
Qed.

Lemma rstrip_no_trailing_sep s : last_char (rstrip s) ≠ Some sep.
Proof.
  induction s as [|c s IH]; [done|]. simpl.
  destruct (rstrip s) as [|c' r] eqn:Hr.
  - unfold is_sep. case_bool_decide as Hc; [done|]. simpl. congruence.
  - simpl in *. exact IH.
Qed.

Lemma rstrip_id s : last_char s ≠ Some sep → rstrip s = s.
Proof.
  induction s as [|c s IH]; [done|]. simpl.
  destruct s as [|c' s'].
  - simpl. intros Hc. unfold is_sep. rewrite bool_decide_eq_false_2; congruence.
  - intros H. rewrite (IH H). done.
Qed.

Lemma rstrip_snoc_sep s : rstrip (s +:+ String sep "") = rstrip s.
Proof.
  induction s as [|c s IH]; [done|].
  rewrite app_cons. simpl. by rewrite IH.
Qed.

Lemma all_sep_snoc s : all_sep (s +:+ String sep "") = all_sep s.
Proof.
  induction s as [|c s IH]; [done|].
  rewrite app_cons. simpl. by rewrite IH.
Qed.

(** A directory name is empty, all separators, or has no trailing one. *)
Lemma dirname_shape p :
  all_sep (dirname p) = true ∨ (dirname p ≠ "" ∧ last_char (dirname p) ≠ Some sep
                                ∧ all_sep (dirname p) = false).
Proof.
  unfold dirname. destruct (rsplit p).1 as [|c h] eqn:Hh; [by left|].
  cbn [is_empty negb andb].
  destruct (all_sep (String c h)) eqn:Ha; [by left|].
  right. cbn [negb].
  assert (Hne : rstrip (String c h) ≠ "").
  { clear Hh. revert Ha. generalize (String c h). intros s.
    induction s as [|x s IH]; [done|]. simpl.
    destruct (rstrip s); [|done].
    destruct (is_sep x) eqn:Hx; [|done]. simpl. intros Hs Hn. apply IH; [done|].
    reflexivity. }
  split; [done|]. split; [apply rstrip_no_trailing_sep|].
  clear Hh Hne. revert Ha. generalize (String c h). intros s.
  induction s as [|x s IH]; [done|]. simpl.
  destruct (is_sep x) eqn:Hx; simpl.
  - intros Hs. specialize (IH Hs). destruct (rstrip s) eqn:Hr; [done|].
    simpl. by rewrite Hx.
  - intros _. destruct (rstrip s); simpl; by rewrite Hx.
Qed.

Lemma dirname_of_split h f :
  has_sep f = false →
  (h = "" ∨ last_char h = Some sep) →
  rsplit (h +:+ f) = (h, f).
Proof.
  intros Hf [->|Hl].
  - rewrite app_nil_l. by apply has_sep_false_rsplit.
  - destruct (last_char_sep_snoc h Hl) as [a ->].
    rewrite app_assoc. change (String sep "" +:+ f) with (String sep f).
    by apply rsplit_snoc_sep.
Qed.

End PosixpathMore.

(** X2: when the first eight characters [uuid4] gives have no separator,
    the temporary name is in the directory of the target, and its base
    name is the target's, prefixed with an underscore, those characters
    and an underscore. *)
Theorem temp_name_next_to_target path token :
  Posixpath.has_sep (String.substring 0 8 token) = false →
  Posixpath.dirname (temp_name path token) = Posixpath.dirname path
  ∧ Posixpath.basename (temp_name path token)
    = "_" +:+ String.substring 0 8 token +:+ "_" +:+ Posixpath.basename path.
Proof.
  intros Htok. unfold temp_name.
  set (f := "_" +:+ String.substring 0 8 token +:+ "_" +:+ Posixpath.basename path).
  set (d := Posixpath.dirname path).
  assert (Hf : Posixpath.has_sep f = false).
  { subst f. rewrite !PosixpathMore.has_sep_app. rewrite Htok.
    unfold Posixpath.basename. rewrite PosixpathMore.has_sep_basename. done. }
  assert (Hjoin : ∃ h, Posixpath.join d f = h +:+ f
                       ∧ (h = "" ∨ Posixpath.last_char h = Some Posixpath.sep)
                       ∧ (if negb (Posixpath.is_empty h) && negb (Posixpath.all_sep h)
                          then Posixpath.rstrip h else h) = d).
  { unfold Posixpath.join.
    assert (Hs : Posixpath.startswith_sep f = false) by done. rewrite Hs.
    destruct (PosixpathMore.dirname_shape path) as [Hall|(Hne & Hl & Hall)];
      fold d in Hall |- *.
    - (* the directory is empty or all separators *)
      destruct (PosixpathMore.all_sep_last d Hall) as [Hd|Hd].
      + rewrite Hd. simpl. exists "". by eauto.
      + assert (He : Posixpath.endswith_sep d = true).
        { unfold Posixpath.endswith_sep. by rewrite Hd. }
        rewrite He, orb_true_r. exists d. split; [done|]. split; [by right|].
        rewrite Hall. simpl. by rewrite andb_false_r.
    - (* the directory has no trailing separator *)
      fold d in Hne, Hl.
      assert (He : Posixpath.is_empty d || Posixpath.endswith_sep d = false).
      { destruct d as [|c d'] eqn:Ed; [done|]. simpl.
        unfold Posixpath.endswith_sep.
        destruct (Posixpath.last_char (String c d')) as [x|] eqn:Ex; [|done].
        unfold Posixpath.is_sep. apply bool_decide_eq_false_2. congruence. }
      rewrite He. exists (d +:+ String Posixpath.sep "").
      split; [by rewrite PosixpathFacts.app_assoc|].
      split; [right; apply PosixpathFacts.last_char_snoc|].
      rewrite PosixpathMore.all_sep_snoc, Hall.
      assert (Hn : Posixpath.is_empty (d +:+ String Posixpath.sep "") = false)
        by (destruct d; done).
      rewrite Hn. simpl.
      rewrite PosixpathMore.rstrip_snoc_sep. by apply PosixpathMore.rstrip_id. }
  destruct Hjoin as (h & -> & Hh & Hd).
  unfold Posixpath.dirname at 1, Posixpath.basename at 1.
  rewrite (PosixpathMore.dirname_of_split h f Hf Hh). simpl. done.
Qed.

(** ** The properties above, run on the concrete environment *)

Lemma temp_name_next_to_target_witness :
  Posixpath.has_sep (String.substring 0 8 (Demo.uuid4_str 0)) = false
  ∧ Posixpath.dirname (temp_name Demo.db_path (Demo.uuid4_str 0)) = "/data"
  ∧ Posixpath.basename (temp_name Demo.db_path (Demo.uuid4_str 0))
    = "_40000000_db.json".
Proof.
  assert (H : Posixpath.has_sep (String.substring 0 8 (Demo.uuid4_str 0)) = false)
    by reflexivity.
  split; [exact H|].
  exact (temp_name_next_to_target Demo.db_path (Demo.uuid4_str 0) H).
Defined.

Lemma store_success_effect_witness :
  Demo.stored_sample
  = (Ok tt, self_of Demo.stored_sample, world_of Demo.stored_sample)
  ∧ self_of Demo.stored_sample = Demo.sample_self
  ∧ (∃ data,
       serialize (Demo.env Demo.no_fault) (heap Demo.sample_world)
         (_root Demo.sample_self) = Some data
       ∧ fs (world_of Demo.stored_sample) !! Demo.db_path
         = Some (mkFile (json_dump (Demo.env Demo.no_fault) data)
                   (stored_mode (Demo.env Demo.no_fault) (fs Demo.sample_world)
                      Demo.db_path (temp_name Demo.db_path (Demo.uuid4_str 0)))))
  ∧ fs (world_of Demo.stored_sample)
      !! temp_name Demo.db_path (Demo.uuid4_str 0) = None.
Proof.
  assert (H : Demo.stored_sample
    = (Ok tt, self_of Demo.stored_sample, world_of Demo.stored_sample))
    by (vm_compute; reflexivity).
  split; [exact H|].
  destruct (store_success_effect (Demo.env Demo.no_fault) None
              Demo.sample_self Demo.sample_world
              (self_of Demo.stored_sample) (world_of Demo.stored_sample) H)
    as (Hs & Hd & Ht & _).
  exact (conj Hs (conj Hd Ht)).
Defined.

Lemma initialize_success_witness :
  DemoMore.initialized
  = (Ok tt, self_of DemoMore.initialized, world_of DemoMore.initialized)
  ∧ ∃ data,
      serialize (Demo.env Demo.no_fault) (heap Demo.empty_world)
        (Some (mkRoot [])) = Some data
      ∧ contents <$> fs (world_of DemoMore.initialized) !! Demo.db_path
        = Some (json_dump (Demo.env Demo.no_fault) data)
      ∧ self_of DemoMore.initialized = Demo.new_self.
Proof.
  assert (H : DemoMore.initialized
    = (Ok tt, self_of DemoMore.initialized, world_of DemoMore.initialized))
    by (vm_compute; reflexivity).
  split; [exact H|].
  exact (proj2 (initialize_success (Demo.env Demo.no_fault)
                  Demo.new_self Demo.empty_world
                  (self_of DemoMore.initialized) (world_of DemoMore.initialized) H)).
Defined.

Lemma load_after_store_witness :
  Demo.stored_sample
  = (Ok tt, self_of Demo.stored_sample, world_of Demo.stored_sample)
  ∧ result_of (load (Demo.env Demo.no_fault) (self_of Demo.stored_sample)
                 (world_of Demo.stored_sample))
    = Ok (mkRoot [EntryObj 5 10 None; EntryObj 6 11 None;
                  EntryObj 7 12 (Some [EntryObj 8 13 None])]).
Proof.
  assert (H : Demo.stored_sample
    = (Ok tt, self_of Demo.stored_sample, world_of Demo.stored_sample))
    by (vm_compute; reflexivity).
  split; [exact H|].
  assert (Hd : ∃ data,
    serialize (Demo.env Demo.no_fault) (heap Demo.sample_world)
      (_root Demo.sample_self) = Some data
    ∧ json_load (Demo.env Demo.no_fault) (json_dump (Demo.env Demo.no_fault) data)
      = Some data).
  { eexists. split; [reflexivity|]. vm_compute. reflexivity. }
  destruct Hd as (data & Hs & Hj).
  rewrite (load_after_store (Demo.env Demo.no_fault)
             Demo.sample_self Demo.sample_world
             (self_of Demo.stored_sample) (world_of Demo.stored_sample) data
             H Hs Hj eq_refl).
  injection Hs as <-. vm_compute. reflexivity.
Defined.

Lemma load_or_initialize_held_no_disk_witness :
  _root Demo.sample_self = Some Demo.sample_root
  ∧ fs (world_of DemoMore.flattened) = fs Demo.sample_world
  ∧ ok_of DemoMore.flattened = true.
Proof.
  assert (H : _root Demo.sample_self = Some Demo.sample_root) by reflexivity.
  split; [exact H|].
  destruct (load_or_initialize_held_no_disk (Demo.env Demo.no_fault)
              Demo.sample_self Demo.sample_world Demo.sample_root H)
    as [(_ & _ & _ & _ & Hfs & _) Hok].
  split; [exact Hfs|exact Hok].
Defined.

Lemma load_or_initialize_keeps_unreadable_witness :
  load (Demo.env Demo.no_fault) Demo.new_self DemoMore.unreadable_world
  = (Raise JSONDecodeError, Demo.new_self, DemoMore.unreadable_world)
  ∧ _load_or_initialize (Demo.env Demo.no_fault) Demo.new_self
      DemoMore.unreadable_world
    = (Raise JSONDecodeError, Demo.new_self, DemoMore.unreadable_world).
Proof.
  assert (H : load (Demo.env Demo.no_fault) Demo.new_self DemoMore.unreadable_world
    = (Raise JSONDecodeError, Demo.new_self, DemoMore.unreadable_world))
    by (vm_compute; reflexivity).
  split; [exact H|].
  exact (load_or_initialize_keeps_unreadable (Demo.env Demo.no_fault)
           Demo.new_self DemoMore.unreadable_world
           (mkFile "not json" 384) JSONDecodeError
           Demo.new_self DemoMore.unreadable_world
           eq_refl eq_refl H).
Defined.

Lemma load_or_initialize_creates_database_witness :
  DemoMore.first_access
  = (Ok ∅, self_of DemoMore.first_access, world_of DemoMore.first_access)
  ∧ ∃ data,
      serialize (Demo.env Demo.no_fault) (heap Demo.empty_world)
        (Some (mkRoot [])) = Some data
      ∧ contents <$> fs (world_of DemoMore.first_access)
                       !! path (self_of DemoMore.first_access)
        = Some (json_dump (Demo.env Demo.no_fault) data)
      ∧ is_Some (_root (self_of DemoMore.first_access))
      ∧ path (self_of DemoMore.first_access) = path Demo.new_self.
Proof.
  assert (H : DemoMore.first_access
    = (Ok ∅, self_of DemoMore.first_access, world_of DemoMore.first_access))
    by (vm_compute; reflexivity).
  split; [exact H|].
  exact (load_or_initialize_creates_database (Demo.env Demo.no_fault)
           Demo.new_self Demo.empty_world ∅
           (self_of DemoMore.first_access) (world_of DemoMore.first_access)
           eq_refl eq_refl H).
Defined.

Lemma root_returns_held_root_witness :
  Demo.read_root
  = (Ok (_root (self_of Demo.read_root)), self_of Demo.read_root,
     world_of Demo.read_root)
  ∧ is_Some (_root (self_of Demo.read_root)).
Proof.
  assert (H : Demo.read_root
    = (Ok (_root (self_of Demo.read_root)), self_of Demo.read_root,
       world_of Demo.read_root)) by (vm_compute; reflexivity).
  split; [exact H|].
  exact (proj1 (proj2 (root_returns_held_root (Demo.env Demo.no_fault)
           Demo.new_self Demo.on_disk
           (_root (self_of Demo.read_root)) (self_of Demo.read_root)
           (world_of Demo.read_root) H))).
Defined.

Lemma flatten_and_cache_keys_witness :
  entries_only Demo.entry_c = true
  ∧ dom (cache_of (flatten_and_cache Demo.entry_c Demo.new_self Demo.sample_world))
    = dom (_entry_cache Demo.new_self Demo.sample_world) ∪ tree_uuids Demo.entry_c.
Proof.
  assert (H : entries_only Demo.entry_c = true) by reflexivity.
  split; [exact H|].
  exact (proj1 (flatten_and_cache_keys Demo.entry_c Demo.new_self
                  Demo.sample_world H)).
Defined.

Lemma flatten_entries_keeps_cache_keyed_witness :
  cache_keyed (_entry_cache Demo.new_self Demo.sample_world)
  ∧ cache_keyed (cache_of (flatten_entries Demo.sample_root Demo.new_self
                             Demo.sample_world)).
Proof.
  assert (H : cache_keyed (_entry_cache Demo.new_self Demo.sample_world)).
  { intros u e He. vm_compute in He. discriminate He. }
  split; [exact H|].
  exact (flatten_entries_keeps_cache_keyed Demo.sample_root Demo.new_self
           Demo.sample_world H).
Defined.

Lemma flatten_and_cache_links_witness :
  entries_only Demo.entry_a = true
  ∧ field_ids (heap Demo.sample_world) 2 ∪ links Demo.sample_world 10
    ⊆ links (world_of (flatten_and_cache Demo.entry_a Demo.new_self
                         Demo.sample_world)) 10.
Proof.
  assert (H : entries_only Demo.entry_a = true) by reflexivity.
  split; [exact H|].
  exact (flatten_and_cache_links 2 10 None Demo.new_self Demo.sample_world H).
Defined.

Lemma get_entry_after_flatten_witness :
  entries_only Demo.entry_c = true
  ∧ cache_keyed (_entry_cache Demo.new_self Demo.sample_world)
  ∧ ∃ oid' ch',
      get_entry 12
        (self_of (flatten_and_cache Demo.entry_c Demo.new_self Demo.sample_world))
        (world_of (flatten_and_cache Demo.entry_c Demo.new_self Demo.sample_world))
      = (Ok (EntryObj oid' 12 ch'),
         self_of (flatten_and_cache Demo.entry_c Demo.new_self Demo.sample_world),
         world_of (flatten_and_cache Demo.entry_c Demo.new_self Demo.sample_world)).
Proof.
  assert (H : entries_only Demo.entry_c = true) by reflexivity.
  assert (Hk : cache_keyed (_entry_cache Demo.new_self Demo.sample_world)).
  { intros u e He. vm_compute in He. discriminate He. }
  split; [exact H|]. split; [exact Hk|].
  exact (get_entry_after_flatten 4 12 (Some [Demo.entry_d]) Demo.new_self
           Demo.sample_world H Hk).
Defined.

Lemma get_entry_stable_under_flatten_witness :
  _entry_cache Demo.new_self DemoMore.twin_world !! 10%N = Some Demo.entry_a_twin
  ∧ result_of
      (get_entry 10
         (self_of (flatten_entries Demo.sample_root Demo.new_self DemoMore.twin_world))
         (world_of (flatten_entries Demo.sample_root Demo.new_self DemoMore.twin_world)))
    = Ok Demo.entry_a_twin.
Proof.
  assert (H : _entry_cache Demo.new_self DemoMore.twin_world !! 10%N
              = Some Demo.entry_a_twin) by reflexivity.
  split; [exact H|].
  rewrite (get_entry_stable_under_flatten Demo.sample_root 10 Demo.entry_a_twin
             Demo.new_self DemoMore.twin_world H).
  reflexivity.
Defined.

Lemma flatten_entries_shared_witness :
  own_entry_cache Demo.sample_self = None
  ∧ own_entry_cache Demo.new_self = None
  ∧ _entry_cache Demo.new_self
      (world_of (flatten_entries Demo.sample_root Demo.sample_self Demo.sample_world))
    = cache_of (flatten_entries Demo.sample_root Demo.sample_self Demo.sample_world).
Proof.
  split; [reflexivity|]. split; [reflexivity|].
  exact (flatten_entries_shared Demo.sample_root Demo.sample_self
           Demo.sample_world Demo.new_self eq_refl eq_refl).
Defined.

Lemma flatten_entries_private_witness :
  is_Some (own_entry_cache DemoMore.cleared_self)
  ∧ cls_entry_cache
      (world_of (flatten_entries Demo.sample_root DemoMore.cleared_self
                   Demo.sample_world))
    = cls_entry_cache Demo.sample_world.
Proof.
  assert (H : is_Some (own_entry_cache DemoMore.cleared_self)) by (by eexists).
  split; [exact H|].
  exact (proj2 (flatten_entries_private Demo.sample_root DemoMore.cleared_self
                  Demo.sample_world H)).
Defined.

(** ** What the entry cache holds after a flatten *)

Lemma maybe_add_to_cache_files item self w :
  result_of (maybe_add_to_cache item self w) = Ok tt
  ∧ cache_of (maybe_add_to_cache item self w)
    = file_first (_entry_cache self w) item.
Proof.
  unfold result_of, cache_of, self_of, world_of.
  by destruct (maybe_add_to_cache_run item self w) as (s' & w' & -> & Hc & _).
Qed.

Lemma foldl_file_first_lookup l c u :
  foldl file_first c l !! u
  = match c !! u with
    | Some e => Some e
    | None => List.find (is_entry_with u) l
    end.
Proof.
  revert c. induction l as [|x l IH]; intros c; simpl.
  { by destruct (c !! u). }
  rewrite IH. destruct x as [oid u' ch|u']; simpl; [|done].
  case_bool_decide as Hu.
  - subst u'. destruct (c !! u) eqn:Hc; [by rewrite Hc|].
    by rewrite lookup_insert_eq.
  - destruct (c !! u') eqn:Hc'; [done|]. by rewrite lookup_insert_ne.
Qed.

(** On a tree of entry objects [flatten_and_cache] returns, and the entry
    cache is what first-write-wins insertion of the items in the order of
    their discovery makes of it. *)
Lemma flatten_and_cache_files entry :
  entries_only entry = true →
  ∀ self w,
    result_of (flatten_and_cache entry self w) = Ok tt
    ∧ cache_of (flatten_and_cache entry self w)
      = foldl file_first (_entry_cache self w) (discovered entry).
Proof.
  induction entry as [u|oid u|oid u l IH] using Item_ind';
    intros Hok self w; [done| |].
  - rewrite flatten_leaf. apply maybe_add_to_cache_files.
  - change (entries_only (EntryObj oid u (Some l))) with (forallb entries_only l)
      in Hok.
    rewrite flatten_node.
    assert (Hl : ∀ self w,
      result_of (children_loop l self w) = Ok tt
      ∧ cache_of (children_loop l self w)
        = foldl file_first (_entry_cache self w)
            (concat (map (λ c, c :: discovered c) l))).
    { clear self w. induction IH as [|c l Hc _ IHl]; intros self w; [done|].
      cbn [forallb] in Hok. apply andb_true_iff in Hok as [Hc1 Hl1].
      rewrite children_loop_cons.
      destruct (maybe_add_to_cache_files c self w) as [Hr1 Hc2].
      destruct (maybe_add_to_cache c self w) as [[[[]|e] s1] w1];
        unfold result_of in Hr1; simpl in Hr1; [|done].
      destruct (Hc Hc1 s1 w1) as [Hr2 Hc3].
      destruct (flatten_and_cache c s1 w1) as [[[[]|e] s2] w2];
        unfold result_of in Hr2; simpl in Hr2; [|done].
      destruct (IHl Hl1 s2 w2) as [Hr3 Hc4].
      split; [done|]. rewrite Hc4.
      unfold cache_of, self_of, world_of in Hc2, Hc3. simpl in Hc2, Hc3.
      rewrite Hc3, Hc2. cbn [map concat]. by rewrite foldl_app. }
    destruct (Hl self w) as [Hr Hc].
    destruct (children_loop l self w) as [[[[]|e] s1] w1];
      unfold result_of in Hr; simpl in Hr; [|done].
    destruct (maybe_add_to_cache_files (EntryObj oid u (Some l)) s1
                (after_swap_link oid u w1)) as [Hr' Hc'].
    split; [done|]. rewrite Hc'.
    change (_entry_cache s1 (after_swap_link oid u w1)) with (_entry_cache s1 w1).
    unfold cache_of, self_of, world_of in Hc. simpl in Hc. rewrite Hc.
    cbn [discovered]. by rewrite foldl_app.
Qed.

Lemma flatten_entries_files r self w :
  forallb entries_only (entries r) = true →
  result_of (flatten_entries r self w) = Ok tt
  ∧ cache_of (flatten_entries r self w)
    = foldl file_first (_entry_cache self w) (discovered_in r).
Proof.
  unfold flatten_entries, discovered_in. revert self w.
  induction (entries r) as [|e l IHl]; intros self w Hok; [done|].
  cbn [forallb] in Hok. apply andb_true_iff in Hok as [He Hl].
  simpl. unfold bind.
  destruct (flatten_and_cache_files e He self w) as [Hr Hc].
  destruct (flatten_and_cache e self w) as [[[[]|x] s1] w1];
    unfold result_of in Hr; simpl in Hr; [|done].
  destruct (IHl s1 w1 Hl) as [Hr' Hc'].
  split; [done|]. rewrite Hc'.
  unfold cache_of, self_of, world_of in Hc. simpl in Hc.
  by rewrite Hc, foldl_app.
Qed.

(** C8: the entry cache is a dict, so it has at most one entry per
    identifier. [maybe_add_to_cache] never raises, files an entry under
    its id only when the id is absent and otherwise leaves the cache as it
    is. Flattening a Root of entry objects returns, duplicates or not, and
    the entry cache it leaves is what these insertions make of the cache
    in the order the entries are discovered: under every identifier the
    cache answers with the entry it had, or else with the first entry
    discovered under that identifier, and it keeps every binding it had. *)
Theorem entry_cache_first_write_wins r self w :
  forallb entries_only (entries r) = true →
  (∀ item self w,
     result_of (maybe_add_to_cache item self w) = Ok tt
     ∧ cache_of (maybe_add_to_cache item self w)
       = match item with
         | BareUUID _ => _entry_cache self w
         | EntryObj _ meta_id _ =>
             match _entry_cache self w !! meta_id with
             | Some _ => _entry_cache self w
             | None => <[meta_id := item]> (_entry_cache self w)
             end
         end)
  ∧ (∀ entry self w,
       _entry_cache self w ⊆ cache_of (flatten_and_cache entry self w))
  ∧ (∀ r self w,
       _entry_cache self w ⊆ cache_of (flatten_entries r self w))
  ∧ (∀ entry self w,
       entries_only entry = true →
       result_of (flatten_and_cache entry self w) = Ok tt
       ∧ cache_of (flatten_and_cache entry self w)
         = foldl file_first (_entry_cache self w) (discovered entry))
  ∧ result_of (flatten_entries r self w) = Ok tt
  ∧ cache_of (flatten_entries r self w)
    = foldl file_first (_entry_cache self w) (discovered_in r)
  ∧ ∀ u,
      cache_of (flatten_entries r self w) !! u
      = match _entry_cache self w !! u with
        | Some e => Some e
        | None => List.find (is_entry_with u) (discovered_in r)
        end.
Proof.
  intros Hok.
  destruct (flatten_entries_files r self w Hok) as [Hr Hc].
  split; [|split; [|split; [|split; [|split; [|split]]]]].
  - intros item s0 w0. apply maybe_add_to_cache_files.
  - intros entry s0 w0.
    destruct (settles_flatten_and_cache entry s0 w0) as [(H & _) _]. exact H.
  - intros r0 s0 w0.
    destruct (settles_flatten_entries r0 s0 w0) as [(H & _) _]. exact H.
  - intros entry s0 w0 He. by apply flatten_and_cache_files.
  - exact Hr.
  - exact Hc.
  - intros u. rewrite Hc. apply foldl_file_first_lookup.
Qed.

Lemma entry_cache_first_write_wins_witness :
  forallb entries_only (entries twin_root) = true
  ∧ result_of (flatten_entries twin_root Demo.new_self Demo.sample_world) = Ok tt
  ∧ cache_of (flatten_entries twin_root Demo.new_self Demo.sample_world) !! 10%N
    = Some Demo.entry_a
  ∧ cache_of (flatten_entries twin_root Demo.new_self Demo.sample_world) !! 13%N
    = Some Demo.entry_d
  ∧ cache_of (flatten_entries twin_root Demo.new_self Demo.sample_world) !! 14%N
    = None.
Proof.
  assert (H : forallb entries_only (entries twin_root) = true) by reflexivity.
  split; [exact H|].
  destruct (entry_cache_first_write_wins twin_root Demo.new_self
              Demo.sample_world H)
    as (_ & _ & _ & _ & Hr & _ & Hu).
  split; [exact Hr|].
  split; [exact (Hu 10%N)|]. split; [exact (Hu 13%N)|exact (Hu 14%N)].
Defined.

(** ** The scoped helper, from the file to the file *)

Section ScopedHelper.

Context (env : Env).






End ScopedHelper.


(** The Root read on a new backend is the Root of the document on disk. *)
Example read_root_reads_the_document :
  result_of Demo.read_root
  = Ok (Some (mkRoot [EntryObj 1 10 None; EntryObj 2 11 None;
                      EntryObj 3 12 (Some [EntryObj 4 13 None])]))
  ∧ fs (world_of Demo.read_root) !! Demo.db_path = fs Demo.on_disk !! Demo.db_path.
Proof. split; vm_compute; reflexivity. Qed.
